(** * The Gauntlet: the album ranking engine of [localAlbumService.ts]

    A shallow embedding of [src/services/localAlbumService.ts] and the
    properties of its ranking, battle and reorder operations.

    Modelling conventions.
    - JavaScript numbers that hold ranks and points are integers, [Z].
    - [localStorage] holds one item, under the key ['ranked_albums'].  Its
      state is [Storage]: no item, an item that does not parse to an array of
      album records (every such value makes [getAlbums] throw inside its own
      [try] and return the empty array), or an array of album records in
      which the [points] and [battledWith] keys may be missing.
    - [JSON.stringify] followed by [JSON.parse] gives back the records that
      were written ([toStored] then [fillDefaults]).
    - [Array.prototype.sort] is a stable sort (ECMAScript 2019); its result
      for the comparator [(a, b) => b.points - a.points] is the one list
      [sortDesc points] computes, see [sortDesc_unique].
    - every exported function is a computation in the monad [M]: it reads
      and writes the storage and may throw. *)

From Stdlib Require Import ZArith Lia.
From stdpp Require Import base tactics option list strings numbers pretty sorting.

Local Open Scope Z_scope.

(** ** Data model *)

(** [interface Album] *)
Record Album := mkAlbum {
  id : string;
  title : string;
  artist : string;
  releaseYear : string;
  coverArtUrl : option string;
  mbid : string;
  rank : Z;
  points : Z;
  battledWith : list string
}.

(** [interface AlbumSearchResult] of [musicbrainzApi.ts]; its [id] is the
    MusicBrainz id. *)
Record AlbumSearchResult := mkSearchResult {
  sr_id : string;
  sr_title : string;
  sr_artist : string;
  sr_releaseYear : string;
  sr_coverArtUrl : option string
}.

(** An album record as parsed from the store: [points] and [battledWith]
    may be absent ([undefined]). *)
Record StoredAlbum := mkStored {
  st_id : string;
  st_title : string;
  st_artist : string;
  st_releaseYear : string;
  st_coverArtUrl : option string;
  st_mbid : string;
  st_rank : Z;
  st_points : option Z;
  st_battledWith : option (list string)
}.

(** The item ['ranked_albums'] of [localStorage]. *)
Inductive Storage :=
  | Absent
  | Corrupt
  | Stored (records : list StoredAlbum).

(** [interface BattleResult] *)
Record BattleResult := mkResult {
  winner : option Album;
  loser : option Album;
  isDraw : bool;
  winnerPoints : Z;
  loserPoints : Z
}.

(** The errors the service throws, named after the message of the [Error]:
    ['Album not found'] and ['One or both albums not found'],
    ['... is already in your ranking.'], ['... has already battled with ...']
    and ['Invalid winner ID']. *)
Inductive Err :=
  | NotFoundError
  | DuplicateError
  | AlreadyBattledError
  | InvalidWinnerError.

Inductive Outcome (A : Type) :=
  | Returned (v : A)
  | Thrown (e : Err).
Arguments Returned {A} v.
Arguments Thrown {A} e.

Global Instance Album_eq_dec : EqDecision Album.
Proof. solve_decision. Defined.
Global Instance StoredAlbum_eq_dec : EqDecision StoredAlbum.
Proof. solve_decision. Defined.
Global Instance Err_eq_dec : EqDecision Err.
Proof. solve_decision. Defined.

(** Field assignments [a.rank = r], [a.points = p], [a.battledWith = b]. *)
Definition set_rank (r : Z) (a : Album) : Album :=
  mkAlbum (id a) (title a) (artist a) (releaseYear a) (coverArtUrl a)
          (mbid a) r (points a) (battledWith a).

Definition set_points (p : Z) (a : Album) : Album :=
  mkAlbum (id a) (title a) (artist a) (releaseYear a) (coverArtUrl a)
          (mbid a) (rank a) p (battledWith a).

Definition set_battledWith (b : list string) (a : Album) : Album :=
  mkAlbum (id a) (title a) (artist a) (releaseYear a) (coverArtUrl a)
          (mbid a) (rank a) (points a) b.

(** An album without its rank: two albums that differ in rank only have the
    same [eraseRank]. *)
Definition eraseRank (a : Album) : Album := set_rank 0 a.

(** [a.points += n], [a.rank--], [a.rank++], [a.battledWith.push(x)] *)
Definition add_points (n : Z) (a : Album) : Album := set_points (points a + n) a.
Definition rank_decr (a : Album) : Album := set_rank (rank a - 1) a.
Definition rank_incr (a : Album) : Album := set_rank (rank a + 1) a.
Definition push_battled (x : string) (a : Album) : Album :=
  set_battledWith (battledWith a ++ [x]) a.

(** ** The storage monad *)

Definition M (A : Type) : Type := Storage → Outcome A * Storage.

Definition ret {A} (v : A) : M A := λ s, (Returned v, s).
Definition throw {A} (e : Err) : M A := λ s, (Thrown e, s).
Definition bind {A B} (m : M A) (k : A → M B) : M B := λ s,
  match m s with
  | (Returned v, s') => k v s'
  | (Thrown e, s') => (Thrown e, s')
  end.

Notation "'let*' x ':=' m 'in' k" := (bind m (λ x, k))
  (at level 10, x pattern, m at level 100, k at level 200, only parsing).
Notation "'run' m 'then' k" := (bind m (λ _, k))
  (at level 10, m at level 100, k at level 200, only parsing).

(** [JSON.stringify] of an album writes every key. *)
Definition toStored (a : Album) : StoredAlbum :=
  mkStored (id a) (title a) (artist a) (releaseYear a) (coverArtUrl a)
           (mbid a) (rank a) (Some (points a)) (Some (battledWith a)).

(** [localStorage.setItem(ALBUMS_STORAGE_KEY, JSON.stringify(albums))] *)
Definition setItem (albums : list Album) : M unit := λ _,
  (Returned tt, Stored (toStored <$> albums)).

(** ** Stable sort, descending by an integer key

    [sort_insert x l] places [x], which preceded every element of [l] in the
    input, in front of the first element that does not have a strictly
    greater key: the comparator [b.key - a.key] is positive, and [x] moves
    behind [y], exactly when [key x < key y]. *)
Section stable_sort.
Context {A : Type} (key : A → Z).

Fixpoint sort_insert (x : A) (l : list A) : list A :=
  match l with
  | [] => [x]
  | y :: l' =>
      if decide (key x < key y) then y :: sort_insert x l' else x :: y :: l'
  end.

Definition sortDesc (l : list A) : list A := foldr sort_insert [] l.

(** [desc x y]: [x] may stand before [y] in descending order. *)
Definition desc : relation A := λ x y, key y <= key x.
End stable_sort.

(** ** [getAlbums] *)

(** The [map] callback: [{...album, points: album.points !== undefined ?
    album.points : 0, battledWith: album.battledWith || []}] *)
Definition fillDefaults (a : StoredAlbum) : Album :=
  mkAlbum (st_id a) (st_title a) (st_artist a) (st_releaseYear a)
          (st_coverArtUrl a) (st_mbid a) (st_rank a)
          (match st_points a with Some p => p | None => 0 end)
          (match st_battledWith a with Some b => b | None => [] end).

(** [albums.forEach((album, index) => { album.rank = index + 1; })] *)
Definition assignRanks (l : list Album) : list Album :=
  imap (λ i a, set_rank (Z.of_nat i + 1) a) l.

(** The array [getAlbums] returns for a given state of the store. *)
Definition albumsOf (s : Storage) : list Album :=
  match s with
  | Absent => []
  | Corrupt => []
  | Stored records => assignRanks (sortDesc points (fillDefaults <$> records))
  end.

Definition getAlbums : M (list Album) := λ s, (Returned (albumsOf s), s).

(** [albums.findIndex(album => album.id === x)] followed by [albums[index]]
    is [list_find (λ a, id a = x) albums]: the first index whose album has
    the id, with that album; [None] stands for the index [-1]. *)

(** ** [addAlbum] *)

(** [Math.max(...albums.map(a => a.rank))] for a non-empty array, [0] for
    the empty one. *)
Definition highestRank (l : list Album) : Z :=
  match l with
  | [] => 0
  | a :: l' => foldl Z.max (rank a) (rank <$> l')
  end.

(** [`album_${Date.now()}`] *)
Definition freshId (now : Z) : string := "album_" +:+ pretty now.

(** [now] is the value of [Date.now()]. *)
Definition addAlbum (albumData : AlbumSearchResult) (now : Z) : M Album :=
  let* albums := getAlbums in
  match list_find (λ a, mbid a = sr_id albumData) albums with
  | Some _ => throw DuplicateError
  | None =>
      let newAlbum :=
        mkAlbum (freshId now) (sr_title albumData) (sr_artist albumData)
                (sr_releaseYear albumData) (sr_coverArtUrl albumData)
                (sr_id albumData) (highestRank albums + 1) 0 [] in
      run setItem (albums ++ [newAlbum]) then
      ret newAlbum
  end.

(** ** [updateAlbumRank] *)

(** The two [forEach] loops: every album is visited once and its new rank
    depends on its own rank and on the constants [oldRank], [newRank]. *)
Definition shiftRank (oldRank newRank : Z) (a : Album) : Album :=
  if decide (oldRank < newRank) then
    if decide (rank a > oldRank ∧ rank a <= newRank) then rank_decr a else a
  else if decide (oldRank > newRank) then
    if decide (rank a >= newRank ∧ rank a < oldRank) then rank_incr a else a
  else a.

(** The album returned is the object [album] after the loop and after
    [album.rank = newRank]; the same object sits at [albumIndex] of the
    array that is written. *)
Definition updateAlbumRank (albumId : string) (newRank : Z) : M Album :=
  let* albums := getAlbums in
  match list_find (λ a, id a = albumId) albums with
  | None => throw NotFoundError
  | Some (albumIndex, album) =>
      let oldRank := rank album in
      let shifted := shiftRank oldRank newRank <$> albums in
      let updated := alter (set_rank newRank) albumIndex shifted in
      run setItem updated then
      ret (set_rank newRank (shiftRank oldRank newRank album))
  end.

(** ** [deleteAlbum] *)

Definition deleteAlbum (albumId : string) : M unit :=
  let* albums := getAlbums in
  match list_find (λ a, id a = albumId) albums with
  | None => throw NotFoundError
  | Some (albumIndex, deletedAlbum) =>
      let remaining := delete albumIndex albums in
      setItem ((λ a, if decide (rank a > rank deletedAlbum)
                     then rank_decr a else a) <$> remaining)
  end.

(** ** [recordBattle] *)

(** The objects of the array: [getAlbums] builds one fresh object for every
    slot, so an object is identified by its index in the array before the
    sort.  [album1] and [album2] are the same object exactly when their
    indices are equal; all writes go through the index. *)
Definition objects (l : list Album) : list (nat * Album) := imap (λ i a, (i, a)) l.

(** [albums.sort(...)] then [albums.forEach((album, index) => album.rank =
    index + 1)], on the objects. *)
Definition rerank (objs : list (nat * Album)) : list (nat * Album) :=
  imap (λ i o, (o.1, set_rank (Z.of_nat i + 1) o.2))
       (sortDesc (λ o, points o.2) objs).

(** The state of the object [ref] at the end of the call. *)
Definition deref (ref : nat) (objs : list (nat * Album)) : option Album :=
  (λ f, f.2.2) <$> list_find (λ o, o.1 = ref) objs.

(** The [result] record before the sort: it holds references. *)
Record PendingResult := mkPending {
  winnerRef : option nat;
  loserRef : option nat;
  pendingDraw : bool;
  pendingWinnerPoints : Z;
  pendingLoserPoints : Z
}.

Definition resolve (r : PendingResult) (objs : list (nat * Album)) : BattleResult :=
  mkResult (ref ← winnerRef r; deref ref objs) (ref ← loserRef r; deref ref objs)
           (pendingDraw r) (pendingWinnerPoints r) (pendingLoserPoints r).

(** [album1.battledWith.push(album2.id); album2.battledWith.push(album1.id)] *)
Definition markBattled (i1 i2 : nat) (id1 id2 : string) (albums : list Album)
  : list Album :=
  alter (push_battled id1) i2 (alter (push_battled id2) i1 albums).

(** The [if (winnerId === null) ... else if (winnerId === album1.id) ... else
    if (winnerId === album2.id) ... else throw] chain; [None] when it throws. *)
Definition awardPoints (i1 i2 : nat) (id1 id2 : string) (winnerId : option string)
    (albums : list Album) : option (list Album * PendingResult) :=
  match winnerId with
  | None =>
      Some (alter (add_points 1) i2 (alter (add_points 1) i1 albums),
            mkPending None None true 1 1)
  | Some w =>
      if decide (w = id1) then
        Some (alter (add_points 3) i1 albums,
              mkPending (Some i1) (Some i2) false 3 0)
      else if decide (w = id2) then
        Some (alter (add_points 3) i2 albums,
              mkPending (Some i2) (Some i1) false 3 0)
      else None
  end.

(** The guards [if (!album.battledWith)] and [if (album.points ===
    undefined)] never fire on the array of [getAlbums], whose albums all
    carry both fields; they have no counterpart here. *)
Definition recordBattle (album1Id album2Id : string) (winnerId : option string)
  : M BattleResult :=
  let* albums := getAlbums in
  match list_find (λ a, id a = album1Id) albums,
        list_find (λ a, id a = album2Id) albums with
  | Some (album1Index, album1), Some (album2Index, album2) =>
      if decide (id album2 ∈ battledWith album1) then throw AlreadyBattledError
      else
        let marked := markBattled album1Index album2Index (id album1) (id album2) albums in
        match awardPoints album1Index album2Index (id album1) (id album2) winnerId marked with
        | None => throw InvalidWinnerError
        | Some (scored, result) =>
            let final := rerank (objects scored) in
            run setItem (snd <$> final) then
            ret (resolve result final)
        end
  | _, _ => throw NotFoundError
  end.

(** ** [getPossibleBattles] and [getNextBattle] *)

(** The inner loop over [j > i] for the album [a] at index [i], then the
    outer loop over the rest of the array. *)
Fixpoint possiblePairs (l : list Album) : list (Album * Album) :=
  match l with
  | [] => []
  | a :: rest =>
      (pair a <$> filter (λ b, id b ∉ battledWith a) rest) ++ possiblePairs rest
  end.

Definition getPossibleBattles : M (list (Album * Album)) :=
  let* albums := getAlbums in
  ret (possiblePairs albums).

Definition getNextBattle : M (option (Album * Album)) :=
  let* possibleBattles := getPossibleBattles in
  ret (head possibleBattles).

(** ** [reorderAlbums] *)

Definition reorderAlbums (draggedId targetId : string) : M (list Album) :=
  let* albums := getAlbums in
  match list_find (λ a, id a = draggedId) albums,
        list_find (λ a, id a = targetId) albums with
  | Some _, Some (targetIndex, targetAlbum) =>
      run updateAlbumRank draggedId (rank targetAlbum) then
      getAlbums
  | _, _ => throw NotFoundError
  end.

(** ** Example collection *)

Definition rawAlbum (i m : string) : StoredAlbum :=
  mkStored i ("T" +:+ i) "artist" "1999" None m 0 None None.

Definition abc : Storage :=
  Stored [rawAlbum "A" "ma"; rawAlbum "B" "mb"; rawAlbum "C" "mc"].

(** ** Definitions used in the statements *)

(** The list move of the specification: take the element at index [i] out
    and put it back at index [t] ([arr.splice(t, 0, arr.splice(i, 1)[0])]). *)
Definition spliceMove {A} (i t : nat) (l : list A) : list A :=
  match l !! i with
  | Some x => take t (delete i l) ++ x :: drop t (delete i l)
  | None => l
  end.

(** The position to which [spliceMove i t] brings the element at [k]. *)
Definition movedPos (i t k : nat) : nat :=
  if decide (k = i) then t
  else if decide (i < k ≤ t)%nat then (k - 1)%nat
  else if decide (t ≤ k < i)%nat then (k + 1)%nat
  else k.

(** The array [updateAlbumRank] writes, from the array it read. *)
Definition reranked (i : nat) (oldRank newRank : Z) (l : list Album) : list Album :=
  alter (set_rank newRank) i (shiftRank oldRank newRank <$> l).

(** The points [recordBattle] adds to its first and to its second album,
    [None] when the winner id is invalid. *)
Definition gains (id1 id2 : string) (winnerId : option string) : option (Z * Z) :=
  match winnerId with
  | None => Some (1, 1)
  | Some w =>
      if decide (w = id1) then Some (3, 0)
      else if decide (w = id2) then Some (0, 3)
      else None
  end.

(** What the album at index [k] gains when the first album is at index [i1]
    and the second at index [i2]. *)
Definition slotGain (i1 i2 : nat) (d : Z * Z) (k : nat) : Z :=
  (if decide (k = i1) then d.1 else 0) + (if decide (k = i2) then d.2 else 0).

(** The ids pushed on [battledWith] of the album at index [k]. *)
Definition slotPushed (i1 i2 : nat) (id1 id2 : string) (k : nat) : list string :=
  (if decide (k = i1) then [id2] else []) ++ (if decide (k = i2) then [id1] else []).

(** The album [a] after [g] points were added and the ids [pushed] were
    pushed on its [battledWith]. *)
Definition battleUpdate (g : Z) (pushed : list string) (a : Album) : Album :=
  mkAlbum (id a) (title a) (artist a) (releaseYear a) (coverArtUrl a)
          (mbid a) (rank a) (points a + g) (battledWith a ++ pushed).

(** The sum of the points of a collection. *)
Definition totalPoints (l : list Album) : Z := foldr Z.add 0 (points <$> l).

(** A call of [recordBattle]: its three arguments. *)
Definition BattleCall : Type := string * string * option string.

(** A list of calls of [recordBattle], one after the other, whatever each
    returns or throws; with the final store, the number of calls that
    returned a decisive result and the number that returned a draw. *)
Fixpoint runBattles (calls : list BattleCall) (s : Storage) : Storage * (nat * nat) :=
  match calls with
  | [] => (s, (0, 0))%nat
  | (id1, id2, w) :: rest =>
      match recordBattle id1 id2 w s with
      | (Returned res, s') =>
          let '(sf, (k, d)) := runBattles rest s' in
          if isDraw res then (sf, (k, S d)) else (sf, (S k, d))
      | (Thrown _, s') => runBattles rest s'
      end
  end.

(** The pair [x], [y] has been battled: the album [recordBattle] finds for
    each of the two ids has the other id in its [battledWith]. *)
Definition battledPair (l : list Album) (x y : string) : Prop :=
  ∃ (i j : nat) a b,
    list_find (λ c, id c = x) l = Some (i, a) ∧
    list_find (λ c, id c = y) l = Some (j, b) ∧
    y ∈ battledWith a ∧ x ∈ battledWith b.

(** The opponents relation of a collection is symmetric: an album whose
    [battledWith] has the id of another album of the collection is in the
    [battledWith] of that album. *)
Definition opponentsSymmetric (l : list Album) : Prop :=
  Forall (λ a, Forall (λ b, id b ∈ battledWith a → id a ∈ battledWith b) l) l.

(** The opponents relation is irreflexive: no album has its own id in its
    [battledWith]. *)
Definition opponentsIrreflexive (l : list Album) : Prop :=
  Forall (λ a, id a ∉ battledWith a) l.

(** Complete round robin: any two albums at different positions have each
    other's id in their [battledWith]. *)
Definition roundRobinComplete (l : list Album) : Prop :=
  ∀ (i j : nat) a b, i ≠ j → l !! i = Some a → l !! j = Some b →
    id b ∈ battledWith a ∧ id a ∈ battledWith b.

(** [(a, b)], at the indices [i < j], is the first unplayed pair of the
    enumeration with [i] ascending and, for each [i], [j > i] ascending:
    the album at [i] does not have the id of the album at [j], and every
    pair before, at a smaller [i] or at the same [i] and a smaller [j], has. *)
Definition firstUnplayed (l : list Album) (i j : nat) (a b : Album) : Prop :=
  (i < j)%nat ∧ l !! i = Some a ∧ l !! j = Some b ∧ (id b ∉ battledWith a) ∧
  ∀ (i' j' : nat) a' b', (i' < j')%nat → l !! i' = Some a' → l !! j' = Some b' →
    (i' < i ∨ (i' = i ∧ j' < j))%nat → id b' ∈ battledWith a'.

(** ** The operations as data *)

(** A call of one of the exported functions that write the store. *)
Inductive Op :=
  | OpAdd (albumData : AlbumSearchResult) (now : Z)
  | OpUpdateRank (albumId : string) (newRank : Z)
  | OpDelete (albumId : string)
  | OpBattle (album1Id album2Id : string) (winnerId : option string)
  | OpReorder (draggedId targetId : string).

(** What a call threw, [None] when it returned. *)
Definition thrown {A} (r : Outcome A * Storage) : option Err :=
  match r.1 with
  | Returned _ => None
  | Thrown e => Some e
  end.

(** The call [op] on the store [s]: what it threw, and the store after it. *)
Definition runOp (op : Op) (s : Storage) : option Err * Storage :=
  match op with
  | OpAdd albumData now => (thrown (addAlbum albumData now s), (addAlbum albumData now s).2)
  | OpUpdateRank x r => (thrown (updateAlbumRank x r s), (updateAlbumRank x r s).2)
  | OpDelete x => (thrown (deleteAlbum x s), (deleteAlbum x s).2)
  | OpBattle x y w => (thrown (recordBattle x y w s), (recordBattle x y w s).2)
  | OpReorder x y => (thrown (reorderAlbums x y s), (reorderAlbums x y s).2)
  end.

(** The store after a list of calls, one after the other. *)
Definition runOps (ops : list Op) (s : Storage) : Storage :=
  foldl (λ s op, (runOp op s).2) s ops.

(** ** [App]: the ranked list and the battle button *)

(** [fetchRankedAlbums]: [const albums = getAlbums(); albums.sort((a, b) =>
    a.rank - b.rank); setRankedAlbums(albums)].  The value is the new
    [rankedAlbums].  The comparator [a.rank - b.rank] is [key(b) - key(a)]
    for the key [- rank], the comparator of the descending sort by this
    key.  [getAlbums] does not throw, so the [catch] is never entered. *)
Definition fetchRankedAlbums : M (list Album) :=
  let* albums := getAlbums in
  ret (sortDesc (λ a, - rank a) albums).

(** The effect on [rankedAlbums]: [if (rankedAlbums.length >= 2) { const
    battles = getPossibleBattles(); setHasPossibleBattles(battles.length >
    0); } else { setHasPossibleBattles(false); }].  The value is the new
    [hasPossibleBattles], which enables the battle button. *)
Definition checkPossibleBattles (rankedAlbums : list Album) : M bool :=
  if decide (2 <= length rankedAlbums)%nat then
    let* battles := getPossibleBattles in
    ret (bool_decide (0 < length battles)%nat)
  else ret false.

(** ** [AlbumBattle]: one battle after the other *)

(** [loadNextBattle]: the value is the new [currentBattle]. *)
Definition loadNextBattle : M (option (Album * Album)) := getNextBattle.

(** The three buttons of the battle view: [handleSelectWinner(album1.id)],
    [handleSelectWinner(album2.id)] and [handleSelectWinner(null)], with
    [[album1, album2] = currentBattle]. *)
Inductive Button := PickFirst | PickSecond | PickDraw.

Definition clicked (b : Button) (currentBattle : Album * Album) : option string :=
  match b with
  | PickFirst => Some (id currentBattle.1)
  | PickSecond => Some (id currentBattle.2)
  | PickDraw => None
  end.

(** [handleSelectWinner]: nothing without a current battle; otherwise
    [recordBattle(album1.id, album2.id, winnerId)], whose result is shown,
    and [onBattleComplete()], which is [fetchRankedAlbums] of [App].  An
    error thrown by [recordBattle] is caught and shown as the error
    message: it is the [Thrown] outcome here. *)
Definition handleSelectWinner (currentBattle : option (Album * Album))
    (winnerId : option string) : M (option BattleResult) :=
  match currentBattle with
  | None => ret None
  | Some (album1, album2) =>
      let* result := recordBattle (id album1) (id album2) winnerId in
      run fetchRankedAlbums then
      ret (Some result)
  end.

(** A round of the battle view: load the next battle and, when there is
    one, press a button.  The value tells whether a battle was shown. *)
Definition battleRound (b : Button) : M bool :=
  let* currentBattle := loadNextBattle in
  match currentBattle with
  | None => ret false
  | Some battle =>
      run handleSelectWinner (Some battle) (clicked b battle) then ret true
  end.

(** The store after the rounds with the buttons [bs], one after the other,
    and the number of rounds that showed a battle and recorded it. *)
Fixpoint battleRounds (bs : list Button) (s : Storage) : Storage * nat :=
  match bs with
  | [] => (s, 0%nat)
  | b :: rest =>
      match battleRound b s with
      | (Returned true, s') => let '(sf, n) := battleRounds rest s' in (sf, S n)
      | (_, s') => battleRounds rest s'
      end
  end.

(** ** Counting the battles left *)

(** What [getPossibleBattles] reads of an album: its id and its
    [battledWith]. *)
Definition opp (a : Album) : string * list string := (id a, battledWith a).

(** The number of pairs [getPossibleBattles] pushes, on the ids and
    [battledWith] arrays alone. *)
Fixpoint unplayed (l : list (string * list string)) : nat :=
  match l with
  | [] => 0
  | a :: rest => length (filter (λ b, b.1 ∉ a.2) rest) + unplayed rest
  end.

(** [opponentsSymmetric] on the ids and [battledWith] arrays. *)
Definition symOpp (l : list (string * list string)) : Prop :=
  ∀ a b, a ∈ l → b ∈ l → b.1 ∈ a.2 → a.1 ∈ b.2.

(** [battledWith.push(z)] *)
Definition pushOpp (z : string) (e : string * list string) : string * list string :=
  (e.1, e.2 ++ [z]).

(** ** [AlbumRanking]: removing a row *)


(** ** [AlbumSearch]: the pages of the search results *)





(** * Properties *)

(** ** The stable sort *)

Section stable_sort_facts.
Context {A : Type} (key : A → Z).
Implicit Types (x y : A) (l : list A) (k : Z).

Lemma sort_insert_perm x l : sort_insert key x l ≡ₚ x :: l.
Proof.
  induction l as [|y l IH]; simpl; [done|].
  case_decide; [|done].
  rewrite IH. apply Permutation_swap.
Qed.

Lemma sortDesc_perm l : sortDesc key l ≡ₚ l.
Proof.
  induction l as [|x l IH]; simpl; [done|].
  rewrite sort_insert_perm. by f_equiv.
Qed.

Lemma sortDesc_length l : length (sortDesc key l) = length l.
Proof. by rewrite sortDesc_perm. Qed.

Lemma sort_insert_sorted x l :
  StronglySorted (desc key) l → StronglySorted (desc key) (sort_insert key x l).
Proof.
  induction l as [|y l IH]; simpl; intros Hs.
  - repeat constructor.
  - apply StronglySorted_cons in Hs as [Hy Hs].
    case_decide as Hlt.
    + apply StronglySorted_cons. split; [|by apply IH].
      rewrite sort_insert_perm. constructor; [|done].
      unfold desc. lia.
    + apply StronglySorted_cons. split; [|by apply StronglySorted_cons].
      constructor; [unfold desc; lia|].
      eapply Forall_impl; [exact Hy|]. unfold desc. intros z ?. lia.
Qed.

Lemma sortDesc_sorted l : StronglySorted (desc key) (sortDesc key l).
Proof.
  induction l as [|x l IH]; simpl; [constructor|].
  by apply sort_insert_sorted.
Qed.

(** Stability: the elements of any one key keep their input order. *)
Lemma sort_insert_stable k x l :
  filter (λ y, key y = k) (sort_insert key x l) = filter (λ y, key y = k) (x :: l).
Proof.
  induction l as [|y l IH]; simpl; [done|].
  case_decide as Hlt; [|done].
  rewrite (filter_cons _ y), IH, !(filter_cons _ x), !(filter_cons _ y).
  repeat case_decide; try done; lia.
Qed.

Lemma sortDesc_stable k l :
  filter (λ y, key y = k) (sortDesc key l) = filter (λ y, key y = k) l.
Proof.
  induction l as [|x l IH]; simpl; [done|].
  by rewrite sort_insert_stable, !filter_cons, IH.
Qed.

(** A list that is already in descending order is left as it is. *)
Lemma sortDesc_sorted_id l : StronglySorted (desc key) l → sortDesc key l = l.
Proof.
  induction l as [|x l IH]; simpl; [done|].
  intros [Hx Hs]%StronglySorted_cons. rewrite IH by done.
  destruct l as [|y l]; simpl; [done|].
  apply Forall_cons in Hx as [Hxy _]. unfold desc in Hxy.
  case_decide; [lia|done].
Qed.

(** Two descending lists with the same elements in the same order for
    every key are equal: the result of a stable sort does not depend on
    the algorithm. *)
Lemma sorted_stable_eq l1 l2 :
  StronglySorted (desc key) l1 → StronglySorted (desc key) l2 →
  (∀ k, filter (λ y, key y = k) l1 = filter (λ y, key y = k) l2) →
  l1 = l2.
Proof.
  revert l2. induction l1 as [|x l1 IH]; intros l2 Hs1 Hs2 Hf.
  - destruct l2 as [|y l2]; [done|].
    specialize (Hf (key y)). rewrite filter_cons_True in Hf by done. done.
  - destruct l2 as [|y l2].
    { specialize (Hf (key x)). rewrite filter_cons_True in Hf by done. done. }
    apply StronglySorted_cons in Hs1 as [Hx Hs1].
    apply StronglySorted_cons in Hs2 as [Hy Hs2].
    assert (x ∈ y :: l2) as Hxin.
    { eapply (list_elem_of_filter (λ z, key z = key x)).
      rewrite <-Hf, filter_cons_True by done. left. }
    assert (y ∈ x :: l1) as Hyin.
    { eapply (list_elem_of_filter (λ z, key z = key y)).
      rewrite Hf, filter_cons_True by done. left. }
    assert (key x = key y) as Hk.
    { apply Z.le_antisymm.
      - apply elem_of_cons in Hxin as [->|Hxin]; [done|].
        rewrite Forall_forall in Hy. by apply Hy.
      - apply elem_of_cons in Hyin as [->|Hyin]; [done|].
        rewrite Forall_forall in Hx. by apply Hx. }
    pose proof (Hf (key x)) as Hfx.
    rewrite !filter_cons_True in Hfx by done.
    injection Hfx as -> Hfx. f_equal.
    apply IH; [done..|]. intros k.
    destruct (decide (k = key y)) as [->|Hne]; [done|].
    specialize (Hf k). by rewrite !filter_cons_False in Hf by done.
Qed.

Lemma sortDesc_unique l l' :
  StronglySorted (desc key) l' →
  (∀ k, filter (λ y, key y = k) l' = filter (λ y, key y = k) l) →
  l' = sortDesc key l.
Proof.
  intros Hs Hf. apply sorted_stable_eq; [done|apply sortDesc_sorted|].
  intros k. by rewrite sortDesc_stable.
Qed.
End stable_sort_facts.

(** Sorting commutes with a map that keeps the key. *)
Lemma sortDesc_fmap {A B} (keyA : A → Z) (keyB : B → Z) (f : A → B) (l : list A) :
  (∀ x, keyB (f x) = keyA x) →
  f <$> sortDesc keyA l = sortDesc keyB (f <$> l).
Proof.
  intros Hk. unfold sortDesc.
  induction l as [|x l IH]; [done|].
  rewrite fmap_cons. cbn [foldr]. rewrite <-IH.
  generalize (foldr (sort_insert keyA) [] l) as m. clear IH.
  induction m as [|y m IH]; [done|].
  rewrite fmap_cons. cbn [sort_insert]. rewrite !Hk.
  case_decide; rewrite !fmap_cons; [by rewrite IH|done].
Qed.

(** ** The first element with a property, across a sort *)

Lemma filter_find_Some {A} (P : A → Prop) `{!∀ x, Decision (P x)} (l : list A) j b :
  list_find P l = Some (j, b) → ∃ tl, filter P l = b :: tl.
Proof.
  revert j. induction l as [|x l IH]; intros j; [done|].
  cbn [list_find]. rewrite filter_cons. case_decide.
  - intros [= <- <-]. eauto.
  - destruct (list_find P l) as [[j' b']|]; [|done].
    intros [= <- <-]. by eapply IH.
Qed.

Lemma filter_find_None {A} (P : A → Prop) `{!∀ x, Decision (P x)} (l : list A) :
  list_find P l = None → filter P l = [].
Proof.
  intros Hn%list_find_None. induction Hn as [|x l Hx _ IH]; [done|].
  by rewrite filter_cons_False.
Qed.

Section find_sorted.
Context {A : Type} (key : A → Z) (P : A → Prop) `{!∀ x, Decision (P x)}.

Lemma filter_sort_insert_other (y : A) (m : list A) :
  ¬ P y → filter P (sort_insert key y m) = filter P m.
Proof.
  intros Hy. induction m as [|z m IH]; simpl.
  - by rewrite filter_cons_False.
  - case_decide.
    + by rewrite !(filter_cons _ z), IH.
    + by rewrite filter_cons_False.
Qed.

Lemma filter_sort_insert_best (y : A) (m : list A) :
  P y → (∀ z, z ∈ m → P z → key z <= key y) →
  filter P (sort_insert key y m) = y :: filter P m.
Proof.
  intros Hy. induction m as [|z m IH]; intros Hmax; simpl.
  - by rewrite filter_cons_True.
  - case_decide as Hlt.
    + assert (¬ P z) as Hz.
      { intros Hz. specialize (Hmax z (list_elem_of_here _ _) Hz). lia. }
      rewrite !(filter_cons_False _ z) by done. apply IH.
      intros z' Hz'. apply Hmax. by right.
    + by rewrite filter_cons_True.
Qed.

(** When the first element with [P] has the greatest key of all elements
    with [P], it is the first element with [P] of the sorted list too. *)
Lemma head_filter_sortDesc (l : list A) (i : nat) (c : A) :
  list_find P l = Some (i, c) →
  (∀ z, z ∈ l → P z → key z <= key c) →
  head (filter P (sortDesc key l)) = Some c.
Proof.
  revert i. induction l as [|y l IH]; intros i; [done|].
  cbn [list_find sortDesc foldr]. fold (sortDesc key l). case_decide as Hy.
  - intros [= <- <-] Hmax. rewrite filter_sort_insert_best; [done..|].
    intros z Hz. apply Hmax. right. by rewrite <-(sortDesc_perm key l).
  - destruct (list_find P l) as [[j c']|] eqn:Hf; [|done].
    intros [= <- <-] Hmax. rewrite filter_sort_insert_other by done.
    apply (IH j); [done|]. intros z Hz. apply Hmax. by right.
Qed.

Lemma list_find_head_filter (l : list A) (c : A) :
  head (filter P l) = Some c → ∃ j : nat, list_find P l = Some (j, c).
Proof.
  destruct (list_find P l) as [[j c']|] eqn:Hf.
  - destruct (filter_find_Some _ _ _ _ Hf) as [tl ->]. intros [= ->]. eauto.
  - by rewrite (filter_find_None _ _ Hf).
Qed.
End find_sorted.

(** ** Ranks and the read of the store *)

Lemma set_rank_eraseRank r a : set_rank r (eraseRank a) = set_rank r a.
Proof. done. Qed.

Lemma eraseRank_set_rank r a : eraseRank (set_rank r a) = eraseRank a.
Proof. done. Qed.

Lemma set_rank_rank a : set_rank (rank a) a = a.
Proof. by destruct a. Qed.

Lemma fill_toStored a : fillDefaults (toStored a) = a.
Proof. by destruct a. Qed.

Lemma fill_toStored_list (l : list Album) : fillDefaults <$> (toStored <$> l) = l.
Proof.
  rewrite <-list_fmap_compose. rewrite <-(list_fmap_id l) at 2.
  apply list_fmap_ext. intros _ a _. apply fill_toStored.
Qed.

Lemma assignRanks_length l : length (assignRanks l) = length l.
Proof. apply length_imap. Qed.

Lemma assignRanks_lookup l (i : nat) :
  assignRanks l !! i = set_rank (Z.of_nat i + 1) <$> l !! i.
Proof. unfold assignRanks. by rewrite list_lookup_imap. Qed.

Lemma assignRanks_rank l (i : nat) a :
  assignRanks l !! i = Some a → rank a = Z.of_nat i + 1.
Proof.
  rewrite assignRanks_lookup. destruct (l !! i); [|done].
  by intros [= <-].
Qed.

Lemma assignRanks_ranks l : rank <$> assignRanks l = seqZ 1 (Z.of_nat (length l)).
Proof.
  apply list_eq. intros i. rewrite list_lookup_fmap, assignRanks_lookup.
  destruct (l !! i) as [a|] eqn:Hi; simpl.
  - apply lookup_lt_Some in Hi.
    rewrite lookup_seqZ_lt by lia. f_equal. lia.
  - apply lookup_ge_None in Hi. by rewrite lookup_seqZ_ge by lia.
Qed.

Lemma assignRanks_erase l : eraseRank <$> assignRanks l = eraseRank <$> l.
Proof.
  apply list_eq. intros i. rewrite !list_lookup_fmap, assignRanks_lookup.
  by destruct (l !! i).
Qed.

Lemma assignRanks_points l : points <$> assignRanks l = points <$> l.
Proof.
  apply list_eq. intros i. rewrite !list_lookup_fmap, assignRanks_lookup.
  by destruct (l !! i).
Qed.

(** Only the order of the albums matters to [assignRanks], not the ranks
    they carry. *)
Lemma assignRanks_erase_eq l1 l2 :
  eraseRank <$> l1 = eraseRank <$> l2 → assignRanks l1 = assignRanks l2.
Proof.
  intros He. apply list_eq. intros i. rewrite !assignRanks_lookup.
  apply (f_equal (λ l, l !! i)) in He. rewrite !list_lookup_fmap in He.
  destruct (l1 !! i) as [a|], (l2 !! i) as [b|]; try done.
  cbn [fmap option_fmap option_map] in *.
  assert (eraseRank a = eraseRank b) as He' by congruence.
  by rewrite <-(set_rank_eraseRank _ a), He'.
Qed.

Lemma assignRanks_idem l : assignRanks (assignRanks l) = assignRanks l.
Proof. apply assignRanks_erase_eq, assignRanks_erase. Qed.

(** Descending order is a property of the list of points. *)
Lemma sorted_points_fmap (l : list Album) :
  StronglySorted (desc points) l ↔ StronglySorted (λ p q : Z, q <= p) (points <$> l).
Proof.
  induction l as [|a l IH]; [split; constructor|].
  rewrite fmap_cons, !StronglySorted_cons, Forall_fmap, IH. done.
Qed.

Lemma sorted_points_eq (l1 l2 : list Album) :
  points <$> l1 = points <$> l2 →
  StronglySorted (desc points) l1 → StronglySorted (desc points) l2.
Proof. rewrite !sorted_points_fmap. by intros ->. Qed.

Lemma erase_points_eq (l1 l2 : list Album) :
  eraseRank <$> l1 = eraseRank <$> l2 → points <$> l1 = points <$> l2.
Proof.
  intros He. apply (f_equal (fmap points)) in He.
  by rewrite <-!list_fmap_compose in He.
Qed.

Lemma assignRanks_sorted l :
  StronglySorted (desc points) l → StronglySorted (desc points) (assignRanks l).
Proof. apply sorted_points_eq. by rewrite assignRanks_points. Qed.

Lemma albumsOf_sorted s : StronglySorted (desc points) (albumsOf s).
Proof.
  destruct s; simpl; try constructor.
  apply assignRanks_sorted, sortDesc_sorted.
Qed.

Lemma albumsOf_rank s (i : nat) a : albumsOf s !! i = Some a → rank a = Z.of_nat i + 1.
Proof. destruct s; simpl; try done. apply assignRanks_rank. Qed.

Lemma albumsOf_assignRanks s : assignRanks (albumsOf s) = albumsOf s.
Proof. destruct s; simpl; try done. apply assignRanks_idem. Qed.

(** What [getAlbums] returns after [setItem] of a list. *)
Lemma albumsOf_Stored l :
  albumsOf (Stored (toStored <$> l)) = assignRanks (sortDesc points l).
Proof. simpl. by rewrite fill_toStored_list. Qed.

Lemma albumsOf_Stored_sorted l :
  StronglySorted (desc points) l → albumsOf (Stored (toStored <$> l)) = assignRanks l.
Proof. intros Hs. by rewrite albumsOf_Stored, sortDesc_sorted_id. Qed.

(** Writing back a list that differs from the last read in ranks only does
    not change what the next read returns. *)
Lemma albumsOf_Stored_ranks_only s l :
  eraseRank <$> l = eraseRank <$> albumsOf s →
  albumsOf (Stored (toStored <$> l)) = albumsOf s.
Proof.
  intros He. rewrite albumsOf_Stored_sorted.
  - rewrite (assignRanks_erase_eq _ _ He). apply albumsOf_assignRanks.
  - eapply sorted_points_eq; [symmetry; by apply erase_points_eq|].
    apply albumsOf_sorted.
Qed.

Lemma eraseRank_id a b : eraseRank a = eraseRank b → id a = id b.
Proof. intros H. exact (f_equal id H). Qed.

Lemma eraseRank_points a b : eraseRank a = eraseRank b → points a = points b.
Proof. intros H. exact (f_equal points H). Qed.

Lemma eraseRank_battledWith a b :
  eraseRank a = eraseRank b → battledWith a = battledWith b.
Proof. intros H. exact (f_equal battledWith H). Qed.

Lemma find_id_lookup x (l : list Album) (i : nat) a :
  list_find (λ a, id a = x) l = Some (i, a) → l !! i = Some a ∧ id a = x.
Proof. intros (? & ? & _)%list_find_Some. done. Qed.

Lemma find_id_assignRanks (x : string) (m : list Album) (j : nat) c :
  list_find (λ a, id a = x) m = Some (j, c) →
  list_find (λ a, id a = x) (assignRanks m)
  = Some (j, set_rank (Z.of_nat j + 1) c).
Proof.
  intros (Hj & Hc & Hmin)%list_find_Some. apply list_find_Some. split_and!.
  - by rewrite assignRanks_lookup, Hj.
  - done.
  - intros k y. rewrite assignRanks_lookup.
    destruct (m !! k) as [a|] eqn:Ha; [|done]. intros [= <-] Hlt.
    by apply (Hmin k a).
Qed.

Lemma filter_erase_eq (P : Z → Prop) `{!∀ p, Decision (P p)} (l1 l2 : list Album) :
  eraseRank <$> l1 = eraseRank <$> l2 →
  eraseRank <$> filter (λ a, P (points a)) l1
  = eraseRank <$> filter (λ a, P (points a)) l2.
Proof.
  revert l2. induction l1 as [|a l1 IH]; intros [|b l2] He; try done.
  rewrite !fmap_cons in He.
  assert (eraseRank a = eraseRank b) as Hab by congruence.
  assert (eraseRank <$> l1 = eraseRank <$> l2) as Hl by congruence.
  assert (points a = points b) as Hp by exact (f_equal points Hab).
  rewrite !filter_cons, Hp. case_decide; rewrite ?fmap_cons, ?Hab; by rewrite (IH l2).
Qed.

Lemma sorted_lookup_le (l : list Album) (i j : nat) a b :
  StronglySorted (desc points) l →
  l !! i = Some a → l !! j = Some b → (i < j)%nat → points b <= points a.
Proof.
  intros Hs. revert i j. induction Hs as [|x l Hs IH Hx]; intros i j Hi Hj Hlt; [done|].
  destruct j as [|j]; [lia|]. destruct i as [|i]; simpl in *.
  - simplify_eq. rewrite Forall_forall in Hx. apply Hx.
    by eapply list_elem_of_lookup_2.
  - apply (IH i j); [done..|lia].
Qed.

(** C2. For every stored collection [getAlbums] returns the stored albums,
    a missing [points] read as 0 and a missing [battledWith] as the empty
    list, in descending order of points, albums of equal points in their
    stored order, the album at position [i] carrying rank [i + 1]: the ranks
    are 1..N in this order, an album of more points has the smaller rank and
    a smaller rank never goes with fewer points.  With no item in the store,
    or one that does not parse, the result is the empty list and nothing is
    thrown. *)
Theorem getAlbums_normalizes (records : list StoredAlbum) :
  getAlbums Absent = (Returned [], Absent) ∧
  getAlbums Corrupt = (Returned [], Corrupt) ∧
  let filled := fillDefaults <$> records in
  let out := albumsOf (Stored records) in
  getAlbums (Stored records) = (Returned out, Stored records) ∧
  (∀ r, st_points r = None → points (fillDefaults r) = 0) ∧
  (∀ r p, st_points r = Some p → points (fillDefaults r) = p) ∧
  (∀ r, st_battledWith r = None → battledWith (fillDefaults r) = []) ∧
  (∀ r b, st_battledWith r = Some b → battledWith (fillDefaults r) = b) ∧
  (∀ r, id (fillDefaults r) = st_id r ∧ mbid (fillDefaults r) = st_mbid r) ∧
  eraseRank <$> out ≡ₚ eraseRank <$> filled ∧
  StronglySorted (λ a b, points b <= points a) out ∧
  (∀ p, eraseRank <$> filter (λ a, points a = p) out
        = eraseRank <$> filter (λ a, points a = p) filled) ∧
  (∀ (i : nat) a, out !! i = Some a → rank a = Z.of_nat i + 1) ∧
  rank <$> out = seqZ 1 (Z.of_nat (length records)) ∧
  (∀ a b, a ∈ out → b ∈ out → points b < points a → rank a < rank b) ∧
  (∀ a b, a ∈ out → b ∈ out → rank a <= rank b → points b <= points a).
Proof.
  split; [done|]. split; [done|]. intros filled out.
  assert (StronglySorted (desc points) out) as Hsorted by apply albumsOf_sorted.
  assert (∀ (i : nat) a, out !! i = Some a → rank a = Z.of_nat i + 1) as Hrank
    by apply albumsOf_rank.
  assert (∀ a b, a ∈ out → b ∈ out → rank a <= rank b → points b <= points a) as Hmono.
  { intros a b [i Hi]%list_elem_of_lookup [j Hj]%list_elem_of_lookup Hle.
    rewrite (Hrank _ _ Hi), (Hrank _ _ Hj) in Hle.
    destruct (decide (i = j)) as [->|Hne]; [by simplify_eq|].
    eapply (sorted_lookup_le out i j); [done..|lia]. }
  split_and!; try done.
  - intros r Hr. unfold fillDefaults; simpl. by rewrite Hr.
  - intros r p Hr. unfold fillDefaults; simpl. by rewrite Hr.
  - intros r Hr. unfold fillDefaults; simpl. by rewrite Hr.
  - intros r b Hr. unfold fillDefaults; simpl. by rewrite Hr.
  - subst out filled. unfold albumsOf.
    rewrite assignRanks_erase. f_equiv. apply sortDesc_perm.
  - intros p. subst out filled. unfold albumsOf.
    pose proof (filter_erase_eq (λ q, q = p) _ _
      (assignRanks_erase (sortDesc points (fillDefaults <$> records)))) as He.
    cbv beta in He. rewrite He.
    by rewrite (sortDesc_stable points).
  - subst out. unfold albumsOf.
    by rewrite assignRanks_ranks, sortDesc_length, length_fmap.
  - intros a b Ha Hb Hlt.
    destruct (decide (rank a < rank b)) as [|Hge]; [done|].
    assert (points a <= points b) by (apply Hmono; [done..|lia]). lia.
Qed.

Lemma getAlbums_normalizes_witness :
  rank <$> albumsOf abc = [1; 2; 3] ∧ points <$> albumsOf abc = [0; 0; 0].
Proof.
  pose proof (getAlbums_normalizes
    [rawAlbum "A" "ma"; rawAlbum "B" "mb"; rawAlbum "C" "mc"]) as (_ & _ & H).
  destruct H as (_ & _ & _ & _ & _ & _ & _ & _ & _ & _ & Hr & _).
  split; [exact Hr|reflexivity].
Defined.

(** ** Manual reorder *)

Lemma spliceMove_lookup {A} (i t k : nat) (l : list A) :
  (i < length l)%nat → (t < length l)%nat → (k < length l)%nat →
  spliceMove i t l !! movedPos i t k = l !! k.
Proof.
  intros Hi Ht Hk. unfold spliceMove, movedPos.
  destruct (lookup_lt_is_Some_2 l i Hi) as [x Hx]. rewrite Hx.
  assert (length (delete i l) = (length l - 1)%nat) as Hlen.
  { rewrite length_delete by eauto. done. }
  repeat case_decide; subst.
  - rewrite lookup_app_r; rewrite length_take, Hlen; [|lia].
    replace (t - t `min` (length l - 1))%nat with 0%nat by lia. done.
  - rewrite lookup_app_l by (rewrite length_take, Hlen; lia).
    rewrite lookup_take_lt by lia.
    rewrite list_lookup_delete_ge by lia. f_equal. lia.
  - rewrite lookup_app_r; rewrite length_take, Hlen; [|lia].
    replace (k + 1 - t `min` (length l - 1))%nat with (S (k - t)) by lia.
    simpl. rewrite lookup_drop. rewrite list_lookup_delete_lt by lia. f_equal. lia.
  - destruct (decide (k < t)%nat).
    + rewrite lookup_app_l by (rewrite length_take, Hlen; lia).
      rewrite lookup_take_lt by lia.
      rewrite list_lookup_delete_lt by lia. done.
    + rewrite lookup_app_r; rewrite length_take, Hlen; [|lia].
      replace (k - t `min` (length l - 1))%nat with (S (k - t - 1)) by lia.
      simpl. rewrite lookup_drop. rewrite list_lookup_delete_ge by lia. f_equal. lia.
Qed.

Lemma shiftRank_erase o n a : eraseRank (shiftRank o n a) = eraseRank a.
Proof. unfold shiftRank. by repeat case_decide. Qed.

Lemma reranked_erase i o n l : eraseRank <$> reranked i o n l = eraseRank <$> l.
Proof.
  unfold reranked. apply list_eq. intros k.
  rewrite !list_lookup_fmap, list_lookup_alter.
  case_decide; subst; rewrite ?list_lookup_fmap;
    destruct (l !! k); cbn [fmap option_fmap option_map];
    by rewrite ?eraseRank_set_rank, ?shiftRank_erase.
Qed.

Lemma reranked_length i o n l : length (reranked i o n l) = length l.
Proof. unfold reranked. by rewrite length_alter, length_fmap. Qed.

Lemma updateAlbumRank_found s albumId newRank i album :
  list_find (λ a, id a = albumId) (albumsOf s) = Some (i, album) →
  updateAlbumRank albumId newRank s
  = (Returned (set_rank newRank album),
     Stored (toStored <$> reranked i (rank album) newRank (albumsOf s))).
Proof.
  intros Hf. unfold updateAlbumRank, bind, getAlbums. rewrite Hf.
  unfold setItem, ret. fold (reranked i (rank album) newRank (albumsOf s)).
  do 2 f_equal.
  rewrite <-(set_rank_eraseRank _ (shiftRank _ _ _)), shiftRank_erase.
  apply set_rank_eraseRank.
Qed.

Lemma updateAlbumRank_missing s albumId newRank :
  list_find (λ a, id a = albumId) (albumsOf s) = None →
  updateAlbumRank albumId newRank s = (Thrown NotFoundError, s).
Proof. intros Hf. unfold updateAlbumRank, bind, getAlbums. by rewrite Hf. Qed.

(** With ranks equal to position + 1, the rank written for the album at
    index [k] is its position after the move, + 1. *)
Lemma reranked_lookup (i t k : nat) (l : list Album) :
  (∀ (j : nat) a, l !! j = Some a → rank a = Z.of_nat j + 1) →
  reranked i (Z.of_nat i + 1) (Z.of_nat t + 1) l !! k
  = set_rank (Z.of_nat (movedPos i t k) + 1) <$> l !! k.
Proof.
  intros Hr. unfold reranked. rewrite list_lookup_alter.
  assert (∀ r a, set_rank r (shiftRank (Z.of_nat i + 1) (Z.of_nat t + 1) a)
                 = set_rank r a) as Hset.
  { intros r a. by rewrite <-(set_rank_eraseRank _ (shiftRank _ _ _)), shiftRank_erase. }
  unfold movedPos.
  destruct (decide (i = k)) as [->|Hne]; rewrite list_lookup_fmap;
    destruct (l !! k) as [a|] eqn:Hk; try done;
    cbn [fmap option_fmap option_map]; f_equal.
  - rewrite decide_True by done. apply Hset.
  - rewrite decide_False by done. apply Hr in Hk.
    rewrite <-(set_rank_rank (shiftRank _ _ _)), Hset.
    f_equal. unfold shiftRank, rank_decr, rank_incr.
    repeat case_decide; cbn [rank set_rank]; lia.
Qed.

Lemma movedPos_lt (i t k n : nat) :
  (i < n)%nat → (t < n)%nat → (k < n)%nat → (movedPos i t k < n)%nat.
Proof. unfold movedPos. repeat case_decide; lia. Qed.

Lemma movedPos_inj (i t k k' n : nat) :
  (i < n)%nat → (t < n)%nat → (k < n)%nat → (k' < n)%nat →
  movedPos i t k = movedPos i t k' → k = k'.
Proof.
  intros Hi Ht Hk Hk' Heq.
  pose proof (spliceMove_lookup i t k (seq 0 n)) as H1.
  pose proof (spliceMove_lookup i t k' (seq 0 n)) as H2.
  rewrite length_seq in H1, H2.
  specialize (H1 Hi Ht Hk). specialize (H2 Hi Ht Hk').
  rewrite Heq, H2 in H1.
  rewrite !lookup_seq_lt in H1 by done. by simplify_eq.
Qed.

Lemma reorderAlbums_found s draggedId targetId i t dragged target :
  list_find (λ a, id a = draggedId) (albumsOf s) = Some (i, dragged) →
  list_find (λ a, id a = targetId) (albumsOf s) = Some (t, target) →
  reorderAlbums draggedId targetId s
  = (Returned (albumsOf s),
     Stored (toStored <$> reranked i (rank dragged) (rank target) (albumsOf s))).
Proof.
  intros Hd Ht. unfold reorderAlbums, bind at 1, getAlbums at 1. rewrite Hd, Ht.
  unfold bind. rewrite (updateAlbumRank_found _ _ _ _ _ Hd).
  unfold getAlbums. f_equal. f_equal.
  apply albumsOf_Stored_ranks_only, reranked_erase.
Qed.

(** C7.  When both albums are in the collection, the rank update of a manual
    reorder, with [oldRank] the rank of the moved album and [newRank] the
    rank of the target, writes the albums in the order read, each with the
    rank: [newRank] for the moved album; rank - 1 for every other album with
    [oldRank < rank <= newRank]; rank + 1 for every other album with
    [newRank <= rank < oldRank]; the rank it had otherwise, and so for all
    when [oldRank = newRank].  The ranks written have no duplicates and are
    a permutation of 1..N, and they are the positions, + 1, of the albums in
    the list obtained by taking the moved album out and putting it back at
    the position of the target. *)
Theorem reorder_rank_update s movedId targetId (i t : nat) moved target :
  list_find (λ a, id a = movedId) (albumsOf s) = Some (i, moved) →
  list_find (λ a, id a = targetId) (albumsOf s) = Some (t, target) →
  let albums := albumsOf s in
  let oldRank := rank moved in
  let newRank := rank target in
  ∃ written,
    updateAlbumRank movedId newRank s
      = (Returned (set_rank newRank moved), Stored (toStored <$> written)) ∧
    (reorderAlbums movedId targetId s).2 = Stored (toStored <$> written) ∧
    length written = length albums ∧
    (∀ (k : nat) a, albums !! k = Some a →
       ∃ a', written !! k = Some a' ∧ eraseRank a' = eraseRank a ∧
         rank a' =
           if decide (k = i) then newRank
           else if decide (oldRank < rank a ∧ rank a <= newRank) then rank a - 1
           else if decide (newRank <= rank a ∧ rank a < oldRank) then rank a + 1
           else rank a) ∧
    (oldRank = newRank → written = albums) ∧
    NoDup (rank <$> written) ∧
    rank <$> written ≡ₚ seqZ 1 (Z.of_nat (length albums)) ∧
    (∀ (k : nat) a', written !! k = Some a' →
       1 <= rank a' ∧
       spliceMove i t (seq 0 (length albums)) !! Z.to_nat (rank a' - 1) = Some k).
Proof.
  intros Hm Ht albums oldRank newRank.
  destruct (find_id_lookup _ _ _ _ Hm) as [Hi _].
  destruct (find_id_lookup _ _ _ _ Ht) as [Hti _].
  pose proof (albumsOf_rank s) as Hr. fold albums in Hr, Hi, Hti.
  assert (oldRank = Z.of_nat i + 1) as Hold by (by apply Hr).
  assert (newRank = Z.of_nat t + 1) as Hnew by (by apply Hr).
  pose proof (lookup_lt_Some _ _ _ Hi) as Hilt.
  pose proof (lookup_lt_Some _ _ _ Hti) as Htlt.
  set (written := reranked i oldRank newRank albums).
  assert (∀ k : nat, written !! k
            = set_rank (Z.of_nat (movedPos i t k) + 1) <$> albums !! k) as Hw.
  { intros k. subst written. rewrite Hold, Hnew. by apply reranked_lookup. }
  assert (NoDup (rank <$> written)) as Hnd.
  { apply NoDup_alt. intros k k' r.
    rewrite !list_lookup_fmap, !Hw.
    destruct (albums !! k) as [a|] eqn:Hk; [|done].
    destruct (albums !! k') as [a'|] eqn:Hk'; [|done].
    cbn. intros [= <-] [= Heq].
    apply lookup_lt_Some in Hk, Hk'.
    apply (movedPos_inj i t k k' (length albums)); [done..|lia]. }
  exists written. split_and!.
  - by apply updateAlbumRank_found.
  - by rewrite (reorderAlbums_found _ _ _ _ _ _ _ Hm Ht).
  - apply reranked_length.
  - intros k a Hk. rewrite Hw, Hk. eexists. split; [done|]. split; [done|].
    apply Hr in Hk. cbn [rank set_rank]. unfold movedPos.
    rewrite Hk, Hold, Hnew. repeat case_decide; lia.
  - intros Heq. apply list_eq. intros k. rewrite Hw.
    destruct (albums !! k) as [a|] eqn:Hk; [|done]. cbn. f_equal.
    rewrite <-(set_rank_rank a) at 2. f_equal. rewrite (Hr _ _ Hk).
    assert (i = t) by lia. subst. unfold movedPos. repeat case_decide; lia.
  - done.
  - apply submseteq_length_Permutation.
    + apply NoDup_submseteq; [done|]. intros r [k Hk]%list_elem_of_lookup.
      rewrite list_lookup_fmap, Hw in Hk.
      destruct (albums !! k) as [a|] eqn:Hak; [|done]. cbn in Hk. simplify_eq.
      apply lookup_lt_Some in Hak. apply elem_of_seqZ.
      pose proof (movedPos_lt i t k _ Hilt Htlt Hak). lia.
    + rewrite length_seqZ, length_fmap. subst written. rewrite reranked_length. lia.
  - intros k a'. rewrite Hw. destruct (albums !! k) as [a|] eqn:Hak; [|done].
    cbn. intros [= <-]. cbn [rank set_rank]. split; [lia|].
    apply lookup_lt_Some in Hak.
    replace (Z.to_nat (Z.of_nat (movedPos i t k) + 1 - 1)) with (movedPos i t k) by lia.
    rewrite spliceMove_lookup by (by rewrite length_seq).
    by rewrite lookup_seq_lt.
Qed.

Lemma reorder_rank_update_witness :
  ∃ written,
    (reorderAlbums "C" "A" abc).2 = Stored (toStored <$> written) ∧
    rank <$> written ≡ₚ [1; 2; 3].
Proof.
  destruct (reorder_rank_update abc "C" "A" 2 0
              (mkAlbum "C" "TC" "artist" "1999" None "mc" 3 0 [])
              (mkAlbum "A" "TA" "artist" "1999" None "ma" 1 0 [])
              eq_refl eq_refl)
    as (written & _ & Hre & _ & _ & _ & _ & Hperm & _).
  exists written. split; [exact Hre|exact Hperm].
Defined.

(** A manual reorder is invisible to every later read: the array it writes
    differs from the one it read in ranks only, and [getAlbums] assigns the
    ranks anew from the order of the array. *)
Lemma reorderAlbums_read_unchanged s draggedId targetId out s' :
  reorderAlbums draggedId targetId s = (Returned out, s') →
  out = albumsOf s ∧ albumsOf s' = albumsOf s.
Proof.
  unfold reorderAlbums, bind at 1, getAlbums at 1.
  destruct (list_find _ (albumsOf s)) as [[i dragged]|] eqn:Hd; [|done].
  destruct (list_find (λ a, id a = targetId) (albumsOf s)) as [[t target]|] eqn:Ht;
    [|done].
  pose proof (reorderAlbums_found _ _ _ _ _ _ _ Hd Ht) as Hre.
  unfold reorderAlbums, bind at 1, getAlbums at 1 in Hre. rewrite Hd, Ht in Hre.
  rewrite Hre. intros [= <- <-]. split; [done|].
  apply albumsOf_Stored_ranks_only, reranked_erase.
Qed.

(** C1, the code at the failing input.  In the collection [A, B, C], all of
    0 points, [reorderAlbums("C", "A")] moves C to the front: it writes the
    ranks 2, 3, 1 for A, B, C.  The array it returns, which is the next read
    of the store, is nevertheless [A, B, C] with the ranks 1, 2, 3: the
    manual order is lost at the first read, with no battle in between. *)
Theorem reorderAlbums_order_lost :
  ∃ out s',
    reorderAlbums "C" "A" abc = (Returned out, s') ∧
    s' = Stored (toStored <$> [mkAlbum "A" "TA" "artist" "1999" None "ma" 2 0 [];
                               mkAlbum "B" "TB" "artist" "1999" None "mb" 3 0 [];
                               mkAlbum "C" "TC" "artist" "1999" None "mc" 1 0 []]) ∧
    out = albumsOf s' ∧
    id <$> albumsOf s' = ["A"; "B"; "C"] ∧
    rank <$> albumsOf s' = [1; 2; 3] ∧
    albumsOf s' = albumsOf abc.
Proof. eexists _, _. split; [reflexivity|]. by split_and!. Qed.

(** ** Adding an album *)

(** C8. [addAlbum] of a search result whose MusicBrainz id is the [mbid] of
    an album of the collection throws the duplicate error, whatever the
    time and the rest of the collection, and writes nothing: the store is
    the one before the call. *)
Theorem addAlbum_duplicate s albumData now a :
  a ∈ albumsOf s → mbid a = sr_id albumData →
  addAlbum albumData now s = (Thrown DuplicateError, s).
Proof.
  intros Hin Hm. unfold addAlbum, bind, getAlbums.
  destruct (list_find_elem_of (λ a, mbid a = sr_id albumData) _ a Hin Hm) as [x ->].
  done.
Qed.

Lemma addAlbum_duplicate_witness :
  addAlbum (mkSearchResult "mb" "Another title" "artist" "2001" None) 1700000000000 abc
  = (Thrown DuplicateError, abc).
Proof.
  apply (addAlbum_duplicate abc _ _ (mkAlbum "B" "TB" "artist" "1999" None "mb" 2 0 [])).
  - vm_compute. apply list_elem_of_In. simpl. tauto.
  - reflexivity.
Defined.

(** ** Adding and then deleting an album *)

Lemma set_rank_set_rank r r' a : set_rank r (set_rank r' a) = set_rank r a.
Proof. done. Qed.

Lemma sort_insert_head {A} (key : A → Z) (y : A) (l : list A) :
  StronglySorted (desc key) (y :: l) → sort_insert key y l = y :: l.
Proof.
  intros [Hy _]%StronglySorted_cons. destruct l as [|z l]; [done|].
  apply Forall_cons in Hy as [Hyz _]. unfold desc in Hyz. simpl.
  case_decide; [lia|done].
Qed.

(** Sorting a descending list with one more element at its end puts that
    element somewhere in the list and moves nothing else. *)
Lemma sortDesc_snoc {A} (key : A → Z) (l : list A) (x : A) :
  StronglySorted (desc key) l →
  ∃ l1 l2, l = l1 ++ l2 ∧ sortDesc key (l ++ [x]) = l1 ++ x :: l2.
Proof.
  induction l as [|y l IH]; intros Hs.
  - by exists [], [].
  - pose proof Hs as [Hy Hl]%StronglySorted_cons.
    destruct (IH Hl) as (l1 & l2 & -> & Heq).
    change (sortDesc key ((y :: l1 ++ l2) ++ [x]))
      with (sort_insert key y (sortDesc key ((l1 ++ l2) ++ [x]))).
    rewrite Heq. destruct l1 as [|z l1]; simpl in *.
    + case_decide.
      * exists [], (y :: l2). split; [done|]. simpl. f_equal.
        by apply sort_insert_head.
      * by exists [y], l2.
    + apply Forall_cons in Hy as [Hyz _]. unfold desc in Hyz.
      case_decide; [lia|]. by exists (y :: z :: l1), l2.
Qed.

Lemma find_id_assignRanks_middle (x : string) (l1 l2 : list Album) (new : Album) :
  id new = x → Forall (λ a, id a ≠ x) l1 →
  list_find (λ a, id a = x) (assignRanks (l1 ++ new :: l2))
  = Some (length l1, set_rank (Z.of_nat (length l1) + 1) new).
Proof.
  intros Hid Hl1. apply list_find_Some. split_and!.
  - rewrite assignRanks_lookup, lookup_app_r by lia.
    by rewrite Nat.sub_diag.
  - done.
  - intros j y. rewrite assignRanks_lookup. intros Hj Hlt.
    rewrite lookup_app_l in Hj by done.
    destruct (l1 !! j) as [a|] eqn:Ha; [|done]. simpl in Hj. simplify_eq.
    rewrite Forall_forall in Hl1. apply (Hl1 a). by eapply list_elem_of_lookup_2.
Qed.

(** The array [deleteAlbum] writes when it deletes the album at index [j]
    of the array it read: ranks above the deleted one move up by one. *)
Lemma delete_middle_ranks (l1 l2 : list Album) (new : Album) :
  let j := length l1 in
  let read := assignRanks (l1 ++ new :: l2) in
  (λ a, if decide (rank a > Z.of_nat j + 1) then rank_decr a else a) <$> delete j read
  = assignRanks (l1 ++ l2).
Proof.
  intros j read. subst j read. apply list_eq. intros p.
  rewrite list_lookup_fmap, list_lookup_delete.
  rewrite !assignRanks_lookup.
  case_decide as Hp.
  - rewrite !lookup_app_l by lia.
    destruct (l1 !! p) as [a|]; [|done]. cbn.
    rewrite decide_False by lia. done.
  - rewrite !lookup_app_r by lia.
    replace (S p - length l1)%nat with (S (p - length l1)) by lia. cbn [lookup list_lookup].
    destruct (l2 !! (p - length l1)%nat) as [a|]; [|done]. cbn.
    rewrite decide_True by lia. unfold rank_decr. cbn [rank set_rank].
    rewrite set_rank_set_rank. do 2 f_equal. lia.
Qed.

Lemma addAlbum_new s albumData now :
  Forall (λ a, mbid a ≠ sr_id albumData) (albumsOf s) →
  let newAlbum :=
    mkAlbum (freshId now) (sr_title albumData) (sr_artist albumData)
            (sr_releaseYear albumData) (sr_coverArtUrl albumData)
            (sr_id albumData) (highestRank (albumsOf s) + 1) 0 [] in
  addAlbum albumData now s
  = (Returned newAlbum, Stored (toStored <$> (albumsOf s ++ [newAlbum]))).
Proof.
  intros Hnew. unfold addAlbum, bind, getAlbums.
  by rewrite (proj2 (list_find_None _ _) Hnew).
Qed.

Lemma foldl_max_seqZ (m : Z) (n : nat) :
  foldl Z.max m (seqZ (m + 1) (Z.of_nat n)) = m + Z.of_nat n.
Proof.
  revert m. induction n as [|n IH]; intros m.
  - simpl. lia.
  - rewrite seqZ_cons by lia. cbn [foldl].
    replace (Z.max m (m + 1)) with (m + 1) by lia.
    replace (Z.succ (m + 1)) with (m + 1 + 1) by lia.
    replace (Z.pred (Z.of_nat (S n))) with (Z.of_nat n) by lia.
    rewrite IH. lia.
Qed.

(** The highest rank of the array [getAlbums] returns is its length. *)
Lemma highestRank_albumsOf s : highestRank (albumsOf s) = Z.of_nat (length (albumsOf s)).
Proof.
  pose proof (assignRanks_ranks (albumsOf s)) as Hr.
  rewrite albumsOf_assignRanks in Hr.
  destruct (albumsOf s) as [|a l]; [done|].
  rewrite fmap_cons in Hr. cbn [length] in *.
  rewrite seqZ_cons in Hr by lia.
  replace (Z.pred (Z.of_nat (S (length l)))) with (Z.of_nat (length l)) in Hr by lia.
  injection Hr as Ha Hl. unfold highestRank. rewrite Ha, Hl.
  change (Z.succ 1) with (1 + 1). rewrite foldl_max_seqZ. lia.
Qed.

(** X21.  Adding and deleting under a fresh id.  When the MusicBrainz id
    of the search result is not in the collection and the id made from the
    clock is the id of no album of the collection, [addAlbum] and then
    [deleteAlbum] of the id of the album created succeed both, and the store
    afterwards holds exactly the collection that [getAlbums] returned before
    the add: the same albums with the same ids, points and ranks, in the
    same order.  Nothing is said here for a clock value whose id an album
    carries. *)
Theorem add_then_delete s albumData now :
  Forall (λ a, mbid a ≠ sr_id albumData) (albumsOf s) →
  Forall (λ a, id a ≠ freshId now) (albumsOf s) →
  ∃ newAlbum s1 s2,
    addAlbum albumData now s = (Returned newAlbum, s1) ∧
    id newAlbum = freshId now ∧
    points newAlbum = 0 ∧
    rank newAlbum = Z.of_nat (length (albumsOf s)) + 1 ∧
    id <$> albumsOf s1 ≡ₚ id newAlbum :: (id <$> albumsOf s) ∧
    deleteAlbum (id newAlbum) s1 = (Returned tt, s2) ∧
    s2 = Stored (toStored <$> albumsOf s) ∧
    albumsOf s2 = albumsOf s.
Proof.
  intros Hdup Hfresh.
  pose proof (addAlbum_new s albumData now Hdup) as Hadd. cbv zeta in Hadd.
  set (newAlbum := mkAlbum _ _ _ _ _ _ _ _ _) in Hadd.
  set (s1 := Stored (toStored <$> (albumsOf s ++ [newAlbum]))) in *.
  destruct (sortDesc_snoc points (albumsOf s) newAlbum (albumsOf_sorted s))
    as (l1 & l2 & Hl & Hsort).
  assert (albumsOf s1 = assignRanks (l1 ++ newAlbum :: l2)) as Hread.
  { subst s1. by rewrite albumsOf_Stored, Hsort. }
  assert (Forall (λ a, id a ≠ freshId now) l1) as Hl1.
  { rewrite Hl in Hfresh. by apply Forall_app in Hfresh as [? _]. }
  exists newAlbum, s1, (Stored (toStored <$> albumsOf s)).
  split_and!; try done.
  - subst newAlbum. cbn [rank]. by rewrite highestRank_albumsOf.
  - rewrite Hread.
    transitivity (id <$> (eraseRank <$> assignRanks (l1 ++ newAlbum :: l2))).
    { by rewrite <-list_fmap_compose. }
    rewrite assignRanks_erase, <-list_fmap_compose, Hl.
    rewrite !fmap_app, fmap_cons. symmetry. apply Permutation_middle.
  - unfold deleteAlbum, bind, getAlbums. rewrite Hread.
    rewrite (find_id_assignRanks_middle (freshId now)) by done.
    unfold setItem. cbn [rank set_rank].
    pose proof (delete_middle_ranks l1 l2 newAlbum) as Hdel. cbv zeta in Hdel.
    rewrite Hdel, <-Hl, albumsOf_assignRanks. done.
  - by apply albumsOf_Stored_ranks_only.
Qed.

Lemma add_then_delete_witness :
  ∃ newAlbum s1 s2,
    addAlbum (mkSearchResult "md" "TD" "artist" "2001" None) 1700000000000 abc
      = (Returned newAlbum, s1) ∧
    deleteAlbum (id newAlbum) s1 = (Returned tt, s2) ∧
    albumsOf s2 = albumsOf abc.
Proof.
  destruct (add_then_delete abc (mkSearchResult "md" "TD" "artist" "2001" None)
              1700000000000)
    as (newAlbum & s1 & s2 & Hadd & _ & _ & _ & _ & Hdel & _ & Hsame).
  - vm_compute. repeat constructor; discriminate.
  - vm_compute. repeat constructor; discriminate.
  - exists newAlbum, s1, s2. by split_and!.
Defined.

(** C10, the code at the failing input.  [addAlbum] makes the id of the new
    album from the clock alone, [album_${Date.now()}], and never looks
    whether an album carries it, although its comment says "Generate a
    unique ID".  In the collection below the album Old, with 3 points after
    its battle with Other, carries the id of the clock value
    1700000000000.  [addAlbum] of a new search result at this clock value
    succeeds and gives the new album the id of Old; [deleteAlbum] of the id
    of the album created finds Old first and deletes it.  Add and then
    delete leave Other at rank 1 and the new album at rank 2, both with 0
    points, where Old with 3 points at rank 1 and Other at rank 2 were
    before. *)
Theorem add_then_delete_id_collision :
  let view := λ a, (id a, mbid a, points a, rank a) in
  let s := Stored [mkStored "album_1700000000000" "Old" "artist" "1999" None "m-old" 1
                     (Some 3) (Some ["album_1700000000001"]);
                   mkStored "album_1700000000001" "Other" "artist" "1999" None "m-other" 2
                     (Some 0) (Some ["album_1700000000000"])] in
  ∃ newAlbum s1 s2,
    addAlbum (mkSearchResult "m-new" "New" "artist" "2001" None) 1700000000000 s
      = (Returned newAlbum, s1) ∧
    view newAlbum = ("album_1700000000000", "m-new", 0, 3) ∧
    deleteAlbum (id newAlbum) s1 = (Returned tt, s2) ∧
    view <$> albumsOf s = [("album_1700000000000", "m-old", 3, 1);
                           ("album_1700000000001", "m-other", 0, 2)] ∧
    view <$> albumsOf s1 = [("album_1700000000000", "m-old", 3, 1);
                            ("album_1700000000001", "m-other", 0, 2);
                            ("album_1700000000000", "m-new", 0, 3)] ∧
    view <$> albumsOf s2 = [("album_1700000000001", "m-other", 0, 1);
                            ("album_1700000000000", "m-new", 0, 2)].
Proof.
  eexists _, _, _. split; [by vm_compute|].
  split; [by vm_compute|]. split; [by vm_compute|]. by vm_compute.
Qed.

(** ** Recording a battle *)

Lemma objects_snd (l : list Album) : snd <$> objects l = l.
Proof.
  unfold objects. apply list_eq. intros k.
  rewrite list_lookup_fmap, list_lookup_imap. by destruct (l !! k).
Qed.

Lemma rerank_snd (objs : list (nat * Album)) :
  snd <$> rerank objs = assignRanks (sortDesc points (snd <$> objs)).
Proof.
  unfold rerank, assignRanks. rewrite fmap_imap.
  rewrite <-(sortDesc_fmap (λ o : nat * Album, points o.2) points snd) by done.
  by rewrite imap_fmap.
Qed.

Lemma rerank_objects (scored : list Album) :
  snd <$> rerank (objects scored) = assignRanks (sortDesc points scored).
Proof. by rewrite rerank_snd, objects_snd. Qed.

Lemma recordBattle_inv id1 id2 w s res s' :
  recordBattle id1 id2 w s = (Returned res, s') →
  ∃ i1 a1 i2 a2 scored pending,
    list_find (λ a, id a = id1) (albumsOf s) = Some (i1, a1) ∧
    list_find (λ a, id a = id2) (albumsOf s) = Some (i2, a2) ∧
    (id2 ∉ battledWith a1) ∧
    awardPoints i1 i2 id1 id2 w (markBattled i1 i2 id1 id2 (albumsOf s))
      = Some (scored, pending) ∧
    res = resolve pending (rerank (objects scored)) ∧
    s' = Stored (toStored <$> assignRanks (sortDesc points scored)).
Proof.
  unfold recordBattle, bind, getAlbums.
  destruct (list_find _ (albumsOf s)) as [[i1 a1]|] eqn:H1; [|done].
  destruct (list_find (λ a, id a = id2) (albumsOf s)) as [[i2 a2]|] eqn:H2; [|done].
  destruct (find_id_lookup _ _ _ _ H1) as [_ <-].
  destruct (find_id_lookup _ _ _ _ H2) as [_ <-].
  case_decide as Hb; [done|].
  destruct (awardPoints _ _ _ _ _ _) as [[scored pending]|] eqn:Ha; [|done].
  unfold setItem, ret. intros [= <- <-].
  exists i1, a1, i2, a2, scored, pending. by rewrite rerank_objects.
Qed.

Lemma recordBattle_ok id1 id2 w s i1 a1 i2 a2 scored pending :
  list_find (λ a, id a = id1) (albumsOf s) = Some (i1, a1) →
  list_find (λ a, id a = id2) (albumsOf s) = Some (i2, a2) →
  id2 ∉ battledWith a1 →
  awardPoints i1 i2 id1 id2 w (markBattled i1 i2 id1 id2 (albumsOf s))
    = Some (scored, pending) →
  recordBattle id1 id2 w s
  = (Returned (resolve pending (rerank (objects scored))),
     Stored (toStored <$> assignRanks (sortDesc points scored))).
Proof.
  intros H1 H2 Hb Ha. unfold recordBattle, bind, getAlbums. rewrite H1, H2.
  destruct (find_id_lookup _ _ _ _ H1) as [_ Hi1].
  destruct (find_id_lookup _ _ _ _ H2) as [_ Hi2].
  rewrite Hi1, Hi2, decide_False, Ha by done.
  unfold setItem, ret. by rewrite rerank_objects.
Qed.

(** A call that throws has written nothing. *)
Lemma recordBattle_thrown id1 id2 w s e s' :
  recordBattle id1 id2 w s = (Thrown e, s') → s' = s.
Proof.
  unfold recordBattle, bind, getAlbums.
  destruct (list_find _ (albumsOf s)) as [[i1 a1]|]; [|by intros [= _ <-]].
  destruct (list_find _ (albumsOf s)) as [[i2 a2]|]; [|by intros [= _ <-]].
  case_decide; [by intros [= _ <-]|].
  destruct (awardPoints _ _ _ _ _ _) as [[scored pending]|]; [done|].
  by intros [= _ <-].
Qed.

Lemma recordBattle_already id1 id2 w s i1 a1 i2 a2 :
  list_find (λ a, id a = id1) (albumsOf s) = Some (i1, a1) →
  list_find (λ a, id a = id2) (albumsOf s) = Some (i2, a2) →
  id2 ∈ battledWith a1 →
  recordBattle id1 id2 w s = (Thrown AlreadyBattledError, s).
Proof.
  intros H1 H2 Hb. unfold recordBattle, bind, getAlbums. rewrite H1, H2.
  destruct (find_id_lookup _ _ _ _ H2) as [_ Hi2].
  by rewrite Hi2, decide_True.
Qed.

(** The array after the pushes and the award of points, slot by slot. *)
Lemma awardPoints_lookup i1 i2 id1 id2 w (l scored : list Album) pending :
  awardPoints i1 i2 id1 id2 w (markBattled i1 i2 id1 id2 l) = Some (scored, pending) →
  ∃ d, gains id1 id2 w = Some d ∧
    ∀ k : nat, scored !! k
      = battleUpdate (slotGain i1 i2 d k) (slotPushed i1 i2 id1 id2 k) <$> l !! k.
Proof.
  unfold awardPoints, gains, markBattled.
  destruct w as [x|]; repeat case_decide; intros Hs; simplify_eq;
    eexists; (split; [done|]); intros k;
    rewrite !list_lookup_alter; unfold slotGain, slotPushed;
    repeat case_decide; subst; try lia;
    destruct (l !! _) as [[]|]; try done;
    cbn [fmap option_fmap option_map]; f_equal;
    unfold add_points, push_battled, set_points, set_battledWith, battleUpdate;
    cbn; f_equal; rewrite <-?app_assoc, ?app_nil_r; try done; lia.
Qed.

Lemma awardPoints_pending i1 i2 id1 id2 w (l scored : list Album) pending :
  awardPoints i1 i2 id1 id2 w l = Some (scored, pending) →
  pendingDraw pending = bool_decide (w = None) ∧
  pendingWinnerPoints pending = (if w is None then 1 else 3) ∧
  pendingLoserPoints pending = (if w is None then 1 else 0).
Proof.
  unfold awardPoints. destruct w as [x|]; repeat case_decide; intros Hs;
    by simplify_eq.
Qed.

Lemma albumsOf_Stored_normal (l : list Album) :
  albumsOf (Stored (toStored <$> assignRanks (sortDesc points l)))
  = assignRanks (sortDesc points l).
Proof.
  rewrite albumsOf_Stored_sorted; [apply assignRanks_idem|].
  apply assignRanks_sorted, sortDesc_sorted.
Qed.

(** Everything a successful call does, in one statement. *)
Lemma recordBattle_returned id1 id2 w s res s' :
  recordBattle id1 id2 w s = (Returned res, s') →
  ∃ i1 a1 i2 a2 d scored,
    list_find (λ a, id a = id1) (albumsOf s) = Some (i1, a1) ∧
    list_find (λ a, id a = id2) (albumsOf s) = Some (i2, a2) ∧
    (id2 ∉ battledWith a1) ∧
    gains id1 id2 w = Some d ∧
    (∀ k : nat, scored !! k
       = battleUpdate (slotGain i1 i2 d k) (slotPushed i1 i2 id1 id2 k)
           <$> albumsOf s !! k) ∧
    s' = Stored (toStored <$> assignRanks (sortDesc points scored)) ∧
    albumsOf s' = assignRanks (sortDesc points scored) ∧
    isDraw res = bool_decide (w = None) ∧
    winnerPoints res = (if w is None then 1 else 3) ∧
    loserPoints res = (if w is None then 1 else 0).
Proof.
  intros (i1 & a1 & i2 & a2 & scored & pending & H1 & H2 & Hb & Ha & -> & ->)
    %recordBattle_inv.
  destruct (awardPoints_lookup _ _ _ _ _ _ _ _ Ha) as (d & Hd & Hk).
  destruct (awardPoints_pending _ _ _ _ _ _ _ _ Ha) as (Hdraw & Hwp & Hlp).
  exists i1, a1, i2, a2, d, scored. split_and!; try done.
  apply albumsOf_Stored_normal.
Qed.

Lemma scored_length (l scored : list Album) (f : nat → Album → Album) :
  (∀ k : nat, scored !! k = f k <$> l !! k) → length scored = length l.
Proof.
  intros Hk. destruct (Nat.lt_trichotomy (length scored) (length l)) as [Hlt|[?|Hlt]];
    [|done|].
  - destruct (lookup_lt_is_Some_2 l _ Hlt) as [a Ha].
    specialize (Hk (length scored)). rewrite Ha in Hk.
    by rewrite lookup_ge_None_2 in Hk.
  - destruct (lookup_lt_is_Some_2 scored _ Hlt) as [a Ha].
    specialize (Hk (length l)). rewrite Ha in Hk.
    by rewrite lookup_ge_None_2 in Hk.
Qed.

Lemma gains_nonneg id1 id2 w d : gains id1 id2 w = Some d → 0 <= d.1 ∧ 0 <= d.2.
Proof.
  unfold gains. destruct w; repeat case_decide; intros; simplify_eq; cbn; lia.
Qed.

(** The index found for an id is the index found for another id only when
    the ids are equal. *)
Lemma find_id_same_index (l : list Album) (x y : string) (i j : nat) a b :
  list_find (λ c, id c = x) l = Some (i, a) →
  list_find (λ c, id c = y) l = Some (j, b) →
  (i = j ↔ x = y).
Proof.
  intros Hx Hy. split.
  - intros ->. apply find_id_lookup in Hx as [Hi <-]. apply find_id_lookup in Hy as [Hj <-].
    congruence.
  - intros ->. congruence.
Qed.

(** What a successful [recordBattle] leaves of the album found for an id:
    the album found for this id afterwards is the same album, with the
    points and the opponents of the call added (ranks apart).  No
    assumption on the ids of the collection is needed: among albums of the
    same id the first one stays first, since only it ever gains points. *)
Lemma recordBattle_found a b w s res s' x (i : nat) c :
  recordBattle a b w s = (Returned res, s') →
  list_find (λ e, id e = x) (albumsOf s) = Some (i, c) →
  ∃ d (j : nat) c',
    gains a b w = Some d ∧
    list_find (λ e, id e = x) (albumsOf s') = Some (j, c') ∧
    eraseRank c'
    = eraseRank (battleUpdate
        ((if decide (x = a) then d.1 else 0) + (if decide (x = b) then d.2 else 0))
        ((if decide (x = a) then [b] else []) ++ (if decide (x = b) then [a] else []))
        c).
Proof.
  intros Hrb Hx.
  destruct (recordBattle_returned _ _ _ _ _ _ Hrb)
    as (i1 & a1 & i2 & a2 & d & scored & H1 & H2 & _ & Hd & Hk & _ & Hread & _).
  destruct (gains_nonneg _ _ _ _ Hd) as [Hd1 Hd2].
  pose proof (find_id_same_index _ _ _ _ _ _ _ Hx H1) as Hi1.
  pose proof (find_id_same_index _ _ _ _ _ _ _ Hx H2) as Hi2.
  pose proof Hx as (Hi & Hid & Hmin)%list_find_Some.
  set (ci := battleUpdate (slotGain i1 i2 d i) (slotPushed i1 i2 a b i) c).
  assert (list_find (λ e, id e = x) scored = Some (i, ci)) as Hfs.
  { apply list_find_Some. split_and!.
    - by rewrite Hk, Hi.
    - done.
    - intros k y. rewrite Hk. destruct (albumsOf s !! k) as [e|] eqn:He; [|done].
      intros [= <-] Hlt. by apply (Hmin k e). }
  assert (∀ z, z ∈ scored → id z = x → points z <= points ci) as Hmax.
  { intros z [k Hz]%list_elem_of_lookup Hzx. rewrite Hk in Hz.
    destruct (albumsOf s !! k) as [e|] eqn:He; [|done].
    cbn [fmap option_fmap option_map] in Hz.
    assert (z = battleUpdate (slotGain i1 i2 d k) (slotPushed i1 i2 a b k) e)
      as -> by congruence.
    cbn [id battleUpdate] in Hzx. subst ci. cbn [points battleUpdate].
    destruct (decide (k = i)) as [->|Hne]; [by simplify_eq|].
    assert (i < k)%nat as Hlt.
    { destruct (decide (k < i)%nat) as [Hlt|]; [|lia]. by destruct (Hmin k e He Hlt). }
    pose proof (sorted_lookup_le _ i k c e (albumsOf_sorted s) Hi He Hlt) as Hle.
    assert (k ≠ i1) as Hk1.
    { intros ->. apply find_id_lookup in H1 as [Hl1 Ha1].
      apply Hne. symmetry. apply Hi1. congruence. }
    assert (k ≠ i2) as Hk2.
    { intros ->. apply find_id_lookup in H2 as [Hl2 Ha2].
      apply Hne. symmetry. apply Hi2. congruence. }
    unfold slotGain. rewrite (decide_False (P := k = i1)), (decide_False (P := k = i2))
      by done.
    repeat case_decide; lia. }
  pose proof (head_filter_sortDesc points (λ e, id e = x) scored i ci Hfs Hmax) as Hh.
  apply list_find_head_filter in Hh as [j Hj].
  apply find_id_assignRanks in Hj. rewrite <-Hread in Hj.
  exists d, j, (set_rank (Z.of_nat j + 1) ci). split; [done|]. split; [done|].
  rewrite eraseRank_set_rank. subst ci. unfold slotGain, slotPushed. f_equal.
  repeat case_decide; try done; tauto.
Qed.

(** C3.  A successful [recordBattle] first updates the two albums in the
    array it read ([scored]: the order read, with the points awarded and the
    ids pushed), and the collection it writes, which the next read returns,
    is [scored] sorted by points, descending: a permutation of [scored] in
    descending order of points, albums of equal points in the order they had
    in [scored], with the ranks 1..N in this order.  For three albums A, B,
    C of distinct ids stored in this order, all of 0 points, A and B not yet
    battled, [recordBattle(A, B, A)] gives the order [A, B, C] with the
    points 3, 0, 0 and the ranks 1, 2, 3. *)
Theorem recordBattle_resorts :
  (∀ s id1 id2 w res s',
     recordBattle id1 id2 w s = (Returned res, s') →
     ∃ (i1 i2 : nat) d scored,
       fst <$> list_find (λ a, id a = id1) (albumsOf s) = Some i1 ∧
       fst <$> list_find (λ a, id a = id2) (albumsOf s) = Some i2 ∧
       gains id1 id2 w = Some d ∧
       length scored = length (albumsOf s) ∧
       (∀ k : nat, scored !! k
          = battleUpdate (slotGain i1 i2 d k) (slotPushed i1 i2 id1 id2 k)
              <$> albumsOf s !! k) ∧
       let final := albumsOf s' in
       s' = Stored (toStored <$> final) ∧
       eraseRank <$> final ≡ₚ eraseRank <$> scored ∧
       StronglySorted (λ a b, points b <= points a) final ∧
       (∀ p, eraseRank <$> filter (λ a, points a = p) final
             = eraseRank <$> filter (λ a, points a = p) scored) ∧
       rank <$> final = seqZ 1 (Z.of_nat (length (albumsOf s)))) ∧
  (∀ a b c : StoredAlbum,
     st_id a ≠ st_id b → st_id a ≠ st_id c → st_id b ≠ st_id c →
     points (fillDefaults a) = 0 → points (fillDefaults b) = 0 →
     points (fillDefaults c) = 0 →
     st_id b ∉ battledWith (fillDefaults a) →
     ∃ res s',
       recordBattle (st_id a) (st_id b) (Some (st_id a)) (Stored [a; b; c])
         = (Returned res, s') ∧
       id <$> albumsOf s' = [st_id a; st_id b; st_id c] ∧
       points <$> albumsOf s' = [3; 0; 0] ∧
       rank <$> albumsOf s' = [1; 2; 3]).
Proof.
  split.
  - intros s id1 id2 w res s' Hrb.
    destruct (recordBattle_returned _ _ _ _ _ _ Hrb)
      as (i1 & a1 & i2 & a2 & d & scored & H1 & H2 & _ & Hd & Hk & Hs' & Hread & _).
    pose proof (scored_length _ _ _ Hk) as Hlen.
    exists i1, i2, d, scored. rewrite H1, H2. split_and!; try done.
    cbv zeta. rewrite Hread. split_and!.
    + done.
    + rewrite assignRanks_erase. f_equiv. apply sortDesc_perm.
    + apply assignRanks_sorted, sortDesc_sorted.
    + intros p.
      pose proof (filter_erase_eq (λ q, q = p) _ _
        (assignRanks_erase (sortDesc points scored))) as He.
      cbv beta in He. rewrite He. by rewrite (sortDesc_stable points).
    + by rewrite assignRanks_ranks, sortDesc_length, Hlen.
  - intros a b c Hab Hac Hbc Ha Hb Hc Hnb. simpl in Ha, Hb, Hc.
    set (l := [fillDefaults a; fillDefaults b; fillDefaults c]).
    assert (albumsOf (Stored [a; b; c]) = assignRanks l) as Hread.
    { unfold albumsOf. f_equal. apply sortDesc_sorted_id.
      apply sorted_points_fmap. simpl. rewrite Ha, Hb, Hc.
      repeat constructor; lia. }
    assert (list_find (λ x, id x = st_id a) (assignRanks l)
            = Some (0%nat, set_rank 1 (fillDefaults a))) as H1.
    { simpl. by rewrite decide_True. }
    assert (list_find (λ x, id x = st_id b) (assignRanks l)
            = Some (1%nat, set_rank 2 (fillDefaults b))) as H2.
    { simpl. rewrite decide_False by done. by rewrite decide_True. }
    eexists _, _. split.
    + eapply recordBattle_ok; rewrite ?Hread; [exact H1|exact H2|done|].
      unfold awardPoints. by rewrite decide_True.
    + rewrite albumsOf_Stored_normal.
      rewrite sortDesc_sorted_id.
      * simpl. by rewrite Ha, Hb, Hc.
      * apply sorted_points_fmap. simpl. rewrite Ha, Hb, Hc.
        repeat constructor; lia.
Qed.

Lemma recordBattle_resorts_witness :
  ∃ res s',
    recordBattle "A" "B" (Some "A") abc = (Returned res, s') ∧
    id <$> albumsOf s' = ["A"; "B"; "C"] ∧
    points <$> albumsOf s' = [3; 0; 0] ∧
    rank <$> albumsOf s' = [1; 2; 3].
Proof.
  destruct recordBattle_resorts as [_ H].
  apply (H (rawAlbum "A" "ma") (rawAlbum "B" "mb") (rawAlbum "C" "mc"));
    try discriminate; try reflexivity.
  vm_compute. intros Hin. apply list_elem_of_In in Hin. destruct Hin.
Defined.

(** ** Scores *)

Lemma totalPoints_perm (l l' : list Album) :
  l ≡ₚ l' → totalPoints l = totalPoints l'.
Proof.
  unfold totalPoints. induction 1; rewrite ?fmap_cons; cbn [foldr]; lia.
Qed.

Lemma totalPoints_points (l l' : list Album) :
  points <$> l = points <$> l' → totalPoints l = totalPoints l'.
Proof. unfold totalPoints. by intros ->. Qed.

Lemma totalPoints_sorted_ranked (l : list Album) :
  totalPoints (assignRanks (sortDesc points l)) = totalPoints l.
Proof.
  rewrite (totalPoints_points _ _ (assignRanks_points _)).
  apply totalPoints_perm, sortDesc_perm.
Qed.

Lemma totalPoints_alter (f : Album → Album) (n : Z) (l : list Album) (i : nat) :
  (∀ a, points (f a) = points a + n) → (i < length l)%nat →
  totalPoints (alter f i l) = totalPoints l + n.
Proof.
  intros Hf. unfold totalPoints. revert i.
  induction l as [|a l IH]; intros i Hi; cbn [length] in *; [lia|].
  destruct i as [|i]; cbn [alter list_alter]; rewrite !fmap_cons; cbn [foldr].
  - rewrite Hf. lia.
  - rewrite IH by lia. lia.
Qed.

Lemma awardPoints_total i1 i2 id1 id2 w (l scored : list Album) pending :
  (i1 < length l)%nat → (i2 < length l)%nat →
  awardPoints i1 i2 id1 id2 w (markBattled i1 i2 id1 id2 l) = Some (scored, pending) →
  totalPoints scored = totalPoints l + (if w is None then 2 else 3).
Proof.
  intros Hi1 Hi2. unfold awardPoints, markBattled.
  assert (totalPoints (alter (push_battled id1) i2 (alter (push_battled id2) i1 l))
          = totalPoints l) as Hm.
  { rewrite (totalPoints_alter _ 0) by (rewrite ?length_alter; try done; intros; simpl; lia).
    rewrite (totalPoints_alter _ 0) by (try done; intros; simpl; lia). lia. }
  destruct w as [x|]; repeat case_decide; intros Hs; simplify_eq.
  - rewrite (totalPoints_alter _ 3) by (rewrite ?length_alter; try done; intros; simpl; lia).
    lia.
  - rewrite (totalPoints_alter _ 3) by (rewrite ?length_alter; try done; intros; simpl; lia).
    lia.
  - rewrite (totalPoints_alter _ 1) by (rewrite ?length_alter; try done; intros; simpl; lia).
    rewrite (totalPoints_alter _ 1) by (rewrite ?length_alter; try done; intros; simpl; lia).
    lia.
Qed.

Lemma recordBattle_total id1 id2 w s res s' :
  recordBattle id1 id2 w s = (Returned res, s') →
  totalPoints (albumsOf s') = totalPoints (albumsOf s) + (if isDraw res then 2 else 3).
Proof.
  intros Hrb.
  destruct (recordBattle_returned _ _ _ _ _ _ Hrb)
    as (i1 & a1 & i2 & a2 & d & scored & H1 & H2 & _ & Hd & Hk & Hs' & Hread & Hdraw & _).
  apply recordBattle_inv in Hrb
    as (j1 & b1 & j2 & b2 & scored' & pending & H1' & H2' & _ & Ha & _ & Hs'').
  rewrite Hs'', albumsOf_Stored_normal, totalPoints_sorted_ranked.
  apply find_id_lookup in H1' as [Hl1 _]. apply lookup_lt_Some in Hl1.
  apply find_id_lookup in H2' as [Hl2 _]. apply lookup_lt_Some in Hl2.
  rewrite (awardPoints_total _ _ _ _ _ _ _ _ Hl1 Hl2 Ha).
  rewrite Hdraw. by destruct w.
Qed.

Lemma runBattles_total calls s sf K D :
  runBattles calls s = (sf, (K, D)) →
  totalPoints (albumsOf sf)
  = totalPoints (albumsOf s) + 3 * Z.of_nat K + 2 * Z.of_nat D.
Proof.
  revert s sf K D. induction calls as [|[[id1 id2] w] calls IH]; intros s sf K D.
  - simpl. intros [= <- <- <-]. lia.
  - simpl. destruct (recordBattle id1 id2 w s) as [[res|e] s'] eqn:Hrb.
    + destruct (runBattles calls s') as [sf' [k d]] eqn:Hrun.
      pose proof (recordBattle_total _ _ _ _ _ _ Hrb) as Hstep.
      specialize (IH _ _ _ _ Hrun).
      destruct (isDraw res); intros [= <- <- <-]; lia.
    + apply recordBattle_thrown in Hrb as ->. apply IH.
Qed.

Lemma totalPoints_zero (l : list Album) :
  Forall (λ a, points a = 0) l → totalPoints l = 0.
Proof.
  unfold totalPoints. induction 1 as [|a l Ha _ IH]; [done|].
  rewrite fmap_cons. cbn [foldr]. lia.
Qed.

Lemma find_id_NoDup (l : list Album) (x : string) (i k : nat) a a' :
  NoDup (id <$> l) →
  list_find (λ a, id a = x) l = Some (i, a') →
  l !! k = Some a → (id a = x ↔ k = i).
Proof.
  intros Hnd [Hi Hx]%find_id_lookup Hk. split.
  - intros Ha. eapply (NoDup_lookup _ k i x Hnd);
      rewrite list_lookup_fmap; [by rewrite Hk; simpl; f_equal | by rewrite Hi; simpl; f_equal].
  - intros ->. by simplify_eq.
Qed.

(** The albums written by a successful call are the albums of [scored],
    ranks apart. *)
Lemma sorted_ranked_elem (scored : list Album) :
  (∀ b, b ∈ assignRanks (sortDesc points scored) →
        ∃ (k : nat) c, scored !! k = Some c ∧ eraseRank b = eraseRank c) ∧
  (∀ (k : nat) c, scored !! k = Some c →
        ∃ b, b ∈ assignRanks (sortDesc points scored) ∧ eraseRank b = eraseRank c).
Proof.
  assert (eraseRank <$> assignRanks (sortDesc points scored) ≡ₚ eraseRank <$> scored)
    as Hperm.
  { rewrite assignRanks_erase. f_equiv. apply sortDesc_perm. }
  split.
  - intros b Hb. apply (list_elem_of_fmap_2 eraseRank) in Hb.
    rewrite Hperm in Hb. apply list_elem_of_fmap in Hb as (c & Heq & Hc).
    apply list_elem_of_lookup in Hc as [k Hk]. by exists k, c.
  - intros k c Hk. apply list_elem_of_lookup_2 in Hk.
    apply (list_elem_of_fmap_2 eraseRank) in Hk.
    rewrite <-Hperm in Hk. apply list_elem_of_fmap in Hk as (b & Heq & Hb).
    by exists b.
Qed.

Lemma gains_cases id1 id2 w d :
  gains id1 id2 w = Some d →
  (w = None → d = (1, 1)) ∧
  (w = Some id1 → d = (3, 0)) ∧
  (id1 ≠ id2 → w = Some id2 → d = (0, 3)) ∧
  d.1 + d.2 = (if w is None then 2 else 3).
Proof.
  unfold gains. destruct w as [x|]; repeat case_decide; intros; simplify_eq;
    split_and!; intros; by simplify_eq.
Qed.

(** The points of the album found for an id, before and after a successful
    call: what it had, plus what the first album gains if the id is the
    first argument, plus what the second album gains if the id is the
    second argument. *)
Lemma recordBattle_points_found id1 id2 w s res s' d x (i : nat) c :
  recordBattle id1 id2 w s = (Returned res, s') →
  gains id1 id2 w = Some d →
  list_find (λ e, id e = x) (albumsOf s) = Some (i, c) →
  ∃ (j : nat) c',
    list_find (λ e, id e = x) (albumsOf s') = Some (j, c') ∧
    points c' = points c + (if decide (x = id1) then d.1 else 0)
                         + (if decide (x = id2) then d.2 else 0).
Proof.
  intros Hrb Hd Hx.
  destruct (recordBattle_found _ _ _ _ _ _ _ _ _ Hrb Hx)
    as (d' & j & c' & Hd' & Hf & Heq).
  assert (d' = d) as -> by congruence.
  exists j, c'. split; [done|].
  rewrite (eraseRank_points _ _ Heq). cbn [points battleUpdate]. lia.
Qed.

(** The same for every album of a collection without duplicate ids. *)
Lemma recordBattle_points_members id1 id2 w s res s' d :
  recordBattle id1 id2 w s = (Returned res, s') →
  gains id1 id2 w = Some d →
  NoDup (id <$> albumsOf s) →
  (∀ b, b ∈ albumsOf s' →
     ∃ a, a ∈ albumsOf s ∧ id a = id b ∧
       points b = points a + (if decide (id a = id1) then d.1 else 0)
                           + (if decide (id a = id2) then d.2 else 0)) ∧
  (∀ a, a ∈ albumsOf s →
     ∃ b, b ∈ albumsOf s' ∧ id b = id a ∧
       points b = points a + (if decide (id a = id1) then d.1 else 0)
                           + (if decide (id a = id2) then d.2 else 0)).
Proof.
  intros Hrb Hd Hnd.
  destruct (recordBattle_returned _ _ _ _ _ _ Hrb)
    as (i1 & a1 & i2 & a2 & d' & scored & H1 & H2 & _ & Hd' & Hk & _ & Hread & _).
  assert (d' = d) as -> by congruence.
  assert (∀ (k : nat) a, albumsOf s !! k = Some a →
            slotGain i1 i2 d k
            = (if decide (id a = id1) then d.1 else 0)
              + (if decide (id a = id2) then d.2 else 0)) as Hslot.
  { intros k a Ha. unfold slotGain.
    pose proof (find_id_NoDup _ _ _ _ _ _ Hnd H1 Ha) as Hi1.
    pose proof (find_id_NoDup _ _ _ _ _ _ Hnd H2 Ha) as Hi2.
    repeat case_decide; try done; tauto. }
  destruct (sorted_ranked_elem scored) as [Hfwd Hbwd]. rewrite Hread. split.
  - intros b Hb. destruct (Hfwd b Hb) as (k & c & Hc & Heq).
    rewrite Hk in Hc. destruct (albumsOf s !! k) as [a|] eqn:Ha; [|done].
    cbn [fmap option_fmap option_map] in Hc.
    assert (c = battleUpdate (slotGain i1 i2 d k) (slotPushed i1 i2 id1 id2 k) a)
      as -> by congruence.
    exists a. split; [by eapply list_elem_of_lookup_2|].
    rewrite (eraseRank_id _ _ Heq), (eraseRank_points _ _ Heq).
    split; [done|]. cbn [points battleUpdate]. rewrite (Hslot _ _ Ha). lia.
  - intros a [k Ha]%list_elem_of_lookup.
    destruct (Hbwd k (battleUpdate (slotGain i1 i2 d k)
                        (slotPushed i1 i2 id1 id2 k) a)) as (b & Hb & Heq).
    { by rewrite Hk, Ha. }
    exists b. split; [done|].
    rewrite (eraseRank_id _ _ Heq), (eraseRank_points _ _ Heq).
    split; [done|]. cbn [points battleUpdate]. rewrite (Hslot _ _ Ha). lia.
Qed.

(** C4.  A successful [recordBattle] adds 1 point to its first and 1 to its
    second album on a draw, 3 to the winner and nothing to the loser on a
    decisive outcome, and reports these points in its result.  The sum of
    the points of the collection grows by 2 on a draw and by 3 on a decisive
    outcome.  The album found for an id has afterwards the points it had
    plus what it gained as first album plus what it gained as second album:
    when the two ids of the call differ, each of the two albums of a draw
    gains exactly 1 and every other album nothing, and the winner of a
    decisive outcome gains 3 and every other album, the loser among them,
    nothing.  In a collection without duplicate ids this accounts for every
    album before and after the call.  From a collection whose points are
    all 0, after any list of calls, K of which returned a decisive result
    and D a draw, the points of the collection sum to 3K + 2D. *)
Theorem recordBattle_scores :
  (∀ s id1 id2 w res s',
     recordBattle id1 id2 w s = (Returned res, s') →
     ∃ d,
       gains id1 id2 w = Some d ∧
       (w = None → d = (1, 1)) ∧
       (w = Some id1 → d = (3, 0)) ∧
       (id1 ≠ id2 → w = Some id2 → d = (0, 3)) ∧
       isDraw res = bool_decide (w = None) ∧
       winnerPoints res = (if w is None then 1 else 3) ∧
       loserPoints res = (if w is None then 1 else 0) ∧
       totalPoints (albumsOf s')
         = totalPoints (albumsOf s) + (if w is None then 2 else 3) ∧
       (∀ x (i : nat) c,
          list_find (λ e, id e = x) (albumsOf s) = Some (i, c) →
          ∃ (j : nat) c',
            list_find (λ e, id e = x) (albumsOf s') = Some (j, c') ∧
            points c' = points c + (if decide (x = id1) then d.1 else 0)
                                 + (if decide (x = id2) then d.2 else 0)) ∧
       (id1 ≠ id2 →
        ∀ x (i : nat) c,
          list_find (λ e, id e = x) (albumsOf s) = Some (i, c) →
          ∃ (j : nat) c',
            list_find (λ e, id e = x) (albumsOf s') = Some (j, c') ∧
            points c' = points c +
              match w with
              | None => if decide (x = id1 ∨ x = id2) then 1 else 0
              | Some v => if decide (x = v) then 3 else 0
              end) ∧
       (NoDup (id <$> albumsOf s) →
        (∀ b, b ∈ albumsOf s' →
           ∃ a, a ∈ albumsOf s ∧ id a = id b ∧
             points b = points a + (if decide (id a = id1) then d.1 else 0)
                                 + (if decide (id a = id2) then d.2 else 0)) ∧
        (∀ a, a ∈ albumsOf s →
           ∃ b, b ∈ albumsOf s' ∧ id b = id a ∧
             points b = points a + (if decide (id a = id1) then d.1 else 0)
                                 + (if decide (id a = id2) then d.2 else 0)))) ∧
  (∀ calls s sf K D,
     Forall (λ a, points a = 0) (albumsOf s) →
     runBattles calls s = (sf, (K, D)) →
     totalPoints (albumsOf sf) = 3 * Z.of_nat K + 2 * Z.of_nat D).
Proof.
  split.
  - intros s id1 id2 w res s' Hrb.
    pose proof (recordBattle_total _ _ _ _ _ _ Hrb) as Htot.
    destruct (recordBattle_returned _ _ _ _ _ _ Hrb)
      as (_ & _ & _ & _ & d & _ & _ & _ & _ & Hd & _ & _ & _ & Hdraw & Hwp & Hlp).
    destruct (gains_cases _ _ _ _ Hd) as (Hg0 & Hg1 & Hg2 & _).
    exists d. split_and!; try done.
    + rewrite Htot, Hdraw. by destruct w.
    + intros x i c Hx. by eapply recordBattle_points_found.
    + intros Hne x i c Hx.
      destruct (recordBattle_points_found _ _ _ _ _ _ _ _ _ _ Hrb Hd Hx)
        as (j & c' & Hf & Hp).
      exists j, c'. split; [done|]. rewrite Hp.
      unfold gains in Hd. destruct w as [v|];
        repeat case_decide; simplify_eq; cbn [fst snd]; lia || tauto.
    + by apply (recordBattle_points_members id1 id2 w s res s' d).
  - intros calls s sf K D Hzero Hrun.
    rewrite (runBattles_total _ _ _ _ _ Hrun), (totalPoints_zero _ Hzero). lia.
Qed.

Lemma recordBattle_scores_witness :
  totalPoints
    (albumsOf (runBattles [("A", "B", Some "A"); ("A", "B", None); ("B", "C", None);
                           ("C", "A", Some "C")] abc).1)
  = 3 * 2 + 2 * 1.
Proof.
  destruct recordBattle_scores as [_ H].
  apply (H [("A", "B", Some "A"); ("A", "B", None); ("B", "C", None);
            ("C", "A", Some "C")] abc _ 2%nat 1%nat).
  - vm_compute. repeat constructor.
  - vm_compute. reflexivity.
Defined.

(** ** Battling a pair twice *)

Lemma battledPair_sym l x y : battledPair l x y → battledPair l y x.
Proof. intros (i & j & a & b & ? & ? & ? & ?). by exists j, i, b, a. Qed.

Lemma recordBattle_battled s x y w :
  battledPair (albumsOf s) x y →
  recordBattle x y w s = (Thrown AlreadyBattledError, s).
Proof.
  intros (i & j & a & b & Ha & Hb & Hy & _). by eapply recordBattle_already.
Qed.

Lemma scored_ids (l scored : list Album) (g : nat → Z) (p : nat → list string) :
  (∀ k : nat, scored !! k = battleUpdate (g k) (p k) <$> l !! k) →
  id <$> scored = id <$> l.
Proof.
  intros Hk. apply list_eq. intros k. rewrite !list_lookup_fmap, Hk.
  by destruct (l !! k).
Qed.

Lemma sorted_ranked_ids (scored : list Album) :
  id <$> assignRanks (sortDesc points scored) ≡ₚ id <$> scored.
Proof.
  transitivity (id <$> (eraseRank <$> assignRanks (sortDesc points scored))).
  { by rewrite <-list_fmap_compose. }
  rewrite assignRanks_erase, <-list_fmap_compose.
  apply fmap_Permutation, sortDesc_perm.
Qed.

(** A call of [recordBattle], whatever its arguments and its outcome, keeps
    the ids of the collection. *)
Lemma recordBattle_ids a b w s out s' :
  recordBattle a b w s = (out, s') →
  id <$> albumsOf s' ≡ₚ id <$> albumsOf s.
Proof.
  destruct out as [res|e]; intros Hrb.
  - destruct (recordBattle_returned _ _ _ _ _ _ Hrb)
      as (i1 & a1 & i2 & a2 & d & scored & _ & _ & _ & _ & Hk & _ & -> & _).
    by rewrite sorted_ranked_ids, (scored_ids _ _ _ _ Hk).
  - by apply recordBattle_thrown in Hrb as ->.
Qed.

(** The album found for an id after a call of [recordBattle], whatever its
    arguments and its outcome, has all the opponents the album found for
    this id had before. *)
Lemma recordBattle_found_opponents a b w s out s' x (i : nat) c :
  recordBattle a b w s = (out, s') →
  list_find (λ e, id e = x) (albumsOf s) = Some (i, c) →
  ∃ (j : nat) c' pushed,
    list_find (λ e, id e = x) (albumsOf s') = Some (j, c') ∧
    battledWith c' = battledWith c ++ pushed ∧
    (∀ res, out = Returned res → x = a → b ∈ pushed) ∧
    (∀ res, out = Returned res → x = b → a ∈ pushed).
Proof.
  destruct out as [res|e]; intros Hrb Hx.
  - destruct (recordBattle_found _ _ _ _ _ _ _ _ _ Hrb Hx)
      as (d & j & c' & _ & Hf & Heq).
    eexists j, c', _. split; [done|].
    rewrite (eraseRank_battledWith _ _ Heq). cbn [battledWith battleUpdate].
    split; [done|]. split; intros _ _ ->.
    + rewrite decide_True by done. apply elem_of_app. left. left.
    + rewrite (decide_True (P := b = b)) by done. apply elem_of_app. right. left.
  - apply recordBattle_thrown in Hrb as ->. exists i, c, [].
    by rewrite app_nil_r.
Qed.

Lemma recordBattle_keeps_battled a b w s out s' x y :
  recordBattle a b w s = (out, s') →
  battledPair (albumsOf s) x y → battledPair (albumsOf s') x y.
Proof.
  intros Hrb (i & j & c1 & c2 & H1 & H2 & Hy & Hx).
  destruct (recordBattle_found_opponents _ _ _ _ _ _ _ _ _ Hrb H1)
    as (i' & c1' & p1 & H1' & Hb1 & _).
  destruct (recordBattle_found_opponents _ _ _ _ _ _ _ _ _ Hrb H2)
    as (j' & c2' & p2 & H2' & Hb2 & _).
  exists i', j', c1', c2'. split_and!; [done..| |].
  - rewrite Hb1. apply elem_of_app. by left.
  - rewrite Hb2. apply elem_of_app. by left.
Qed.

(** A successful call records the pair on both albums. *)
Lemma recordBattle_records x y w s res s' :
  recordBattle x y w s = (Returned res, s') → battledPair (albumsOf s') x y.
Proof.
  intros Hrb.
  destruct (recordBattle_inv _ _ _ _ _ _ Hrb)
    as (i1 & a1 & i2 & a2 & _ & _ & H1 & H2 & _).
  destruct (recordBattle_found_opponents _ _ _ _ _ _ _ _ _ Hrb H1)
    as (i' & c1' & p1 & H1' & Hb1 & Hp1 & _).
  destruct (recordBattle_found_opponents _ _ _ _ _ _ _ _ _ Hrb H2)
    as (j' & c2' & p2 & H2' & Hb2 & _ & Hp2).
  exists i', j', c1', c2'. split_and!; [done..| |].
  - rewrite Hb1. apply elem_of_app. right. by eapply Hp1.
  - rewrite Hb2. apply elem_of_app. right. by eapply Hp2.
Qed.

Lemma runBattles_keeps_battled calls s x y :
  battledPair (albumsOf s) x y →
  battledPair (albumsOf (runBattles calls s).1) x y.
Proof.
  revert s. induction calls as [|[[a b] w] calls IH]; intros s Hp; [done|].
  cbn [runBattles].
  destruct (recordBattle a b w s) as [out s'] eqn:Hrb.
  pose proof (recordBattle_keeps_battled _ _ _ _ _ _ _ _ Hrb Hp) as Hp'.
  specialize (IH s' Hp').
  destruct out as [res|e]; [|done].
  destruct (runBattles calls s') as [sf [k d]]. by destruct (isDraw res).
Qed.

(** C5.  In every collection in which the pair is recorded as battled, on
    both of its albums, [recordBattle] on the pair, in either order of the
    two ids and with any winner id, throws the already-battled error and
    leaves the store as it is.  This is the state of every collection after
    a successful [recordBattle] on the pair, and it stays so after any
    further calls of [recordBattle]. *)
Theorem recordBattle_twice :
  (∀ s x y w,
     battledPair (albumsOf s) x y →
     recordBattle x y w s = (Thrown AlreadyBattledError, s) ∧
     recordBattle y x w s = (Thrown AlreadyBattledError, s)) ∧
  (∀ s x y w res s1 calls w',
     recordBattle x y w s = (Returned res, s1) →
     let s2 := (runBattles calls s1).1 in
     battledPair (albumsOf s2) x y ∧
     recordBattle x y w' s2 = (Thrown AlreadyBattledError, s2) ∧
     recordBattle y x w' s2 = (Thrown AlreadyBattledError, s2)).
Proof.
  assert (∀ s x y w,
     battledPair (albumsOf s) x y →
     recordBattle x y w s = (Thrown AlreadyBattledError, s) ∧
     recordBattle y x w s = (Thrown AlreadyBattledError, s)) as Hstate.
  { intros s x y w Hp. split; [by apply recordBattle_battled|].
    by apply recordBattle_battled, battledPair_sym. }
  split; [done|].
  intros s x y w res s1 calls w' Hrb s2.
  pose proof (recordBattle_records _ _ _ _ _ _ Hrb) as Hp1.
  pose proof (runBattles_keeps_battled calls s1 x y Hp1) as Hp2.
  split; [done|]. by apply Hstate.
Qed.

Lemma recordBattle_twice_witness :
  let s1 := (recordBattle "A" "B" (Some "A") abc).2 in
  let s2 := (runBattles [("B", "C", None)] s1).1 in
  recordBattle "B" "A" None s2 = (Thrown AlreadyBattledError, s2).
Proof.
  destruct recordBattle_twice as [_ H].
  destruct (recordBattle "A" "B" (Some "A") abc) as [[res|e] s1] eqn:Hrb;
    [|vm_compute in Hrb; discriminate].
  apply (H abc "A" "B" (Some "A") res s1 [("B", "C", None)] None).
  exact Hrb.
Defined.

(** ** The next battle *)

Lemma possiblePairs_elem (l : list Album) a b :
  (a, b) ∈ possiblePairs l ↔
  ∃ i j : nat, (i < j)%nat ∧ l !! i = Some a ∧ l !! j = Some b ∧ id b ∉ battledWith a.
Proof.
  induction l as [|x l IH]; simpl.
  - split; [by intros ?%elem_of_nil|]. by intros (i & j & _ & ? & _).
  - rewrite elem_of_app, list_elem_of_fmap, IH. split.
    + intros [(b' & [= -> ->] & [Hb [j Hj]%list_elem_of_lookup]%list_elem_of_filter)
             |(i & j & Hij & Hi & Hj & Hb)].
      * exists 0%nat, (S j). split_and!; [lia|done..].
      * exists (S i), (S j). split_and!; [lia|done..].
    + intros (i & j & Hij & Hi & Hj & Hb).
      destruct j as [|j]; [lia|]. destruct i as [|i]; simpl in *.
      * left. exists b. simplify_eq. split; [done|].
        apply list_elem_of_filter. split; [done|]. by eapply list_elem_of_lookup_2.
      * right. exists i, j. split_and!; [lia|done..].
Qed.


Lemma head_possiblePairs_Some (l : list Album) a b :
  head (possiblePairs l) = Some (a, b) ↔ ∃ i j, firstUnplayed l i j a b.
Proof.
  revert a b. induction l as [|x l IH]; intros a b.
  { split; [done|]. by intros (i & j & _ & ? & _). }
  cbn [possiblePairs].
  destruct (list_find (λ b, id b ∉ battledWith x) l) as [[j0 b0]|] eqn:Hfind.
  - destruct (filter_find_Some _ _ _ _ Hfind) as [tl ->].
    apply list_find_Some in Hfind as (Hj0 & Hb0 & Hmin). cbn. split.
    + intros [= <- <-]. exists 0%nat, (S j0). split_and!; [lia|done..|].
      intros i' j' a' b' Hij' Hi' Hj' [?|[-> Hlt]]; [lia|].
      destruct j' as [|j']; [lia|]. simpl in *. simplify_eq.
      destruct (decide (id b' ∈ battledWith a')) as [|Hn]; [done|].
      destruct (Hmin j' b' Hj'); [lia|done].
    + intros (i & j & Hij & Hi & Hj & Hb & Hfirst).
      destruct j as [|j]; [lia|]. destruct i as [|i]; simpl in *.
      * simplify_eq. destruct (Nat.lt_trichotomy j j0) as [Hlt|[->|Hlt]].
        -- destruct (Hmin j b Hj Hlt Hb).
        -- by simplify_eq.
        -- destruct Hb0. apply (Hfirst 0%nat (S j0) a b0); [lia|done..|lia].
      * destruct Hb0. apply (Hfirst 0%nat (S j0) x b0); [lia|done..|lia].
  - rewrite (filter_find_None _ _ Hfind). cbn [fmap list_fmap app].
    apply list_find_None in Hfind. rewrite Forall_forall in Hfind.
    rewrite IH. split.
    + intros (i & j & Hij & Hi & Hj & Hb & Hfirst).
      exists (S i), (S j). split_and!; [lia|done..|].
      intros i' j' a' b' Hij' Hi' Hj' Hlt.
      destruct j' as [|j']; [lia|]. destruct i' as [|i']; simpl in *.
      * simplify_eq. destruct (decide (id b' ∈ battledWith a')) as [|Hn]; [done|].
        destruct (Hfind b'); [by eapply list_elem_of_lookup_2|done].
      * apply (Hfirst i' j' a' b'); [lia|done..|lia].
    + intros (i & j & Hij & Hi & Hj & Hb & Hfirst).
      destruct j as [|j]; [lia|]. destruct i as [|i]; simpl in *.
      * simplify_eq. destruct (Hfind b); [by eapply list_elem_of_lookup_2|done].
      * exists i, j. split_and!; [lia|done..|].
        intros i' j' a' b' Hij' Hi' Hj' Hlt.
        apply (Hfirst (S i') (S j') a' b'); [lia|done..|lia].
Qed.

Lemma opponentsSymmetric_lookup (l : list Album) (i j : nat) a b :
  opponentsSymmetric l → l !! i = Some a → l !! j = Some b →
  id b ∈ battledWith a → id a ∈ battledWith b.
Proof.
  unfold opponentsSymmetric. rewrite Forall_forall. intros Hs Hi Hj.
  apply list_elem_of_lookup_2 in Hi, Hj.
  specialize (Hs a Hi). rewrite Forall_forall in Hs. by apply Hs.
Qed.

Lemma getNextBattle_eq s :
  getNextBattle s = (Returned (head (possiblePairs (albumsOf s))), s).
Proof. done. Qed.



(** The hypothesis of symmetry is needed: [getPossibleBattles] looks only at
    the [battledWith] of the album at the smaller index.  In a store where A
    lists B and B does not list A no pair is offered, and the round robin is
    not complete. *)
Example getNextBattle_one_directional :
  let s := Stored [mkStored "A" "TA" "artist" "1999" None "ma" 1 (Some 0) (Some ["B"]);
                   mkStored "B" "TB" "artist" "1999" None "mb" 2 (Some 0) (Some [])] in
  getNextBattle s = (Returned None, s) ∧
  ¬ opponentsSymmetric (albumsOf s) ∧
  ¬ roundRobinComplete (albumsOf s).
Proof.
  intros s. split; [reflexivity|]. split.
  - intros Hs. apply (bool_decide_pack _) in Hs. by vm_compute in Hs.
  - intros Hrr.
    destruct (Hrr 0%nat 1%nat _ _ ltac:(lia) eq_refl eq_refl) as [_ Hin].
    by apply elem_of_nil in Hin.
Qed.

(** ** The opponents relation and a battle of an album with itself *)

Lemma opponentsIrreflexive_elem (l : list Album) a :
  opponentsIrreflexive l → a ∈ l → id a ∉ battledWith a.
Proof. unfold opponentsIrreflexive. rewrite Forall_forall. auto. Qed.

(** [recordBattle] has no guard for equal ids: called with the id of one
    album for both arguments, it finds the same object twice, pushes the id
    of the album on its own [battledWith], twice, and succeeds. *)
Lemma recordBattle_self s x (i : nat) a :
  list_find (λ c, id c = x) (albumsOf s) = Some (i, a) →
  x ∉ battledWith a →
  ∃ res s' a',
    recordBattle x x None s = (Returned res, s') ∧
    a' ∈ albumsOf s' ∧ id a' = x ∧
    battledWith a' = battledWith a ++ [x; x] ∧
    points a' = points a + 2 ∧
    ¬ opponentsIrreflexive (albumsOf s').
Proof.
  intros Hf Hb.
  pose proof (recordBattle_ok x x None s i a i a _ _ Hf Hf Hb eq_refl) as Hrb.
  destruct (recordBattle_returned _ _ _ _ _ _ Hrb)
    as (i1 & a1 & i2 & a2 & d & scored & H1 & H2 & _ & Hd & Hk & _ & Hread & _).
  rewrite Hf in H1, H2.
  assert (i1 = i ∧ a1 = a ∧ i2 = i ∧ a2 = a) as (-> & -> & -> & ->)
    by (split_and!; congruence).
  assert (d = (1, 1)) as -> by (cbn in Hd; congruence).
  destruct (find_id_lookup _ _ _ _ Hf) as [Hi Hid].
  destruct (sorted_ranked_elem scored) as [_ Hbwd]. rewrite <-Hread in Hbwd.
  destruct (Hbwd i (battleUpdate (slotGain i i (1, 1) i)
                      (slotPushed i i x x i) a)) as (a' & Ha' & Heq).
  { by rewrite Hk, Hi. }
  assert (battledWith a' = battledWith a ++ [x; x]) as Hbw.
  { rewrite (eraseRank_battledWith _ _ Heq). cbn [battledWith battleUpdate].
    unfold slotPushed. by rewrite decide_True. }
  eexists _, _, a'. split; [exact Hrb|]. split_and!; try done.
  - by rewrite (eraseRank_id _ _ Heq).
  - rewrite (eraseRank_points _ _ Heq). cbn [points battleUpdate].
    unfold slotGain. rewrite !decide_True by done. cbn [fst snd]. lia.
  - intros Hirr. apply (opponentsIrreflexive_elem _ a' Hirr Ha').
    rewrite Hbw, (eraseRank_id _ _ Heq). cbn [id battleUpdate]. rewrite Hid.
    apply elem_of_app. right. left.
Qed.

Lemma opponentsSymmetric_alt (l : list Album) :
  opponentsSymmetric l ↔
  ∀ a b, a ∈ l → b ∈ l → id b ∈ battledWith a → id a ∈ battledWith b.
Proof.
  unfold opponentsSymmetric. rewrite Forall_forall. split.
  - intros Hs a b Ha Hb. specialize (Hs a Ha). rewrite Forall_forall in Hs. auto.
  - intros Hs a Ha. rewrite Forall_forall. auto.
Qed.

(** The part of the invariant that [recordBattle] keeps: in a collection
    without duplicate ids a symmetric opponents relation stays symmetric,
    also when the two ids are equal. *)
Lemma recordBattle_keeps_symmetric x y w s out s' :
  NoDup (id <$> albumsOf s) → opponentsSymmetric (albumsOf s) →
  recordBattle x y w s = (out, s') →
  opponentsSymmetric (albumsOf s').
Proof.
  intros Hnd Hsym Hrb. destruct out as [res|e];
    [|by apply recordBattle_thrown in Hrb as ->].
  destruct (recordBattle_returned _ _ _ _ _ _ Hrb)
    as (i1 & a1 & i2 & a2 & d & scored & H1 & H2 & _ & _ & Hk & _ & Hread & _).
  rewrite opponentsSymmetric_alt in Hsym. apply opponentsSymmetric_alt.
  rewrite Hread. destruct (sorted_ranked_elem scored) as [Hfwd _].
  intros c' e' Hc' He'.
  destruct (Hfwd c' Hc') as (k & c0 & Hc0 & Hceq).
  destruct (Hfwd e' He') as (k' & e0 & He0 & Heeq).
  rewrite Hk in Hc0, He0.
  destruct (albumsOf s !! k) as [c|] eqn:Hc; [|done].
  destruct (albumsOf s !! k') as [e|] eqn:He; [|done].
  cbn [fmap option_fmap option_map] in Hc0, He0.
  assert (c0 = battleUpdate (slotGain i1 i2 d k) (slotPushed i1 i2 x y k) c)
    as -> by congruence.
  assert (e0 = battleUpdate (slotGain i1 i2 d k') (slotPushed i1 i2 x y k') e)
    as -> by congruence.
  rewrite (eraseRank_id _ _ Hceq), (eraseRank_id _ _ Heeq),
    (eraseRank_battledWith _ _ Hceq), (eraseRank_battledWith _ _ Heeq).
  cbn [id battledWith battleUpdate]. rewrite !elem_of_app.
  pose proof (find_id_NoDup _ _ _ _ _ _ Hnd H1 Hc) as Hc1.
  pose proof (find_id_NoDup _ _ _ _ _ _ Hnd H2 Hc) as Hc2.
  pose proof (find_id_NoDup _ _ _ _ _ _ Hnd H1 He) as He1.
  pose proof (find_id_NoDup _ _ _ _ _ _ Hnd H2 He) as He2.
  intros [Hold|Hnew].
  - left. apply (Hsym c e); [by eapply list_elem_of_lookup_2..|done].
  - right. unfold slotPushed in *. rewrite !elem_of_app in *.
    destruct Hnew as [Hnew|Hnew]; case_decide; try by apply elem_of_nil in Hnew.
    + apply list_elem_of_singleton in Hnew. right.
      rewrite decide_True by tauto. apply list_elem_of_singleton. tauto.
    + apply list_elem_of_singleton in Hnew. left.
      rewrite decide_True by tauto. apply list_elem_of_singleton. tauto.
Qed.

(** C9, the code at the failing input.  In the collection [A, B, C], with no
    battle recorded, the opponents relation is symmetric and irreflexive.
    [recordBattle("A", "A", null)] succeeds, and the collection it writes
    has the album A with [battledWith = ["A", "A"]] and 2 points: the
    relation is no longer irreflexive. *)
Theorem recordBattle_self_pair_breaks_irreflexivity :
  opponentsSymmetric (albumsOf abc) ∧ opponentsIrreflexive (albumsOf abc) ∧
  ∃ res s',
    recordBattle "A" "A" None abc = (Returned res, s') ∧
    albumsOf s' = [mkAlbum "A" "TA" "artist" "1999" None "ma" 1 2 ["A"; "A"];
                   mkAlbum "B" "TB" "artist" "1999" None "mb" 2 0 [];
                   mkAlbum "C" "TC" "artist" "1999" None "mc" 3 0 []] ∧
    isDraw res = true ∧
    ¬ opponentsIrreflexive (albumsOf s').
Proof.
  split; [apply (bool_decide_unpack _); by vm_compute|].
  split; [apply (bool_decide_unpack _); by vm_compute|].
  destruct (recordBattle "A" "A" None abc) as [out s'] eqn:Hrb.
  vm_compute in Hrb. injection Hrb as <- <-.
  eexists _, _. split; [reflexivity|]. split; [reflexivity|]. split; [reflexivity|].
  intros Hirr. apply (opponentsIrreflexive_elem _ _ Hirr (list_elem_of_here _ _)).
  left.
Qed.

(** * Further properties of the service *)

(** ** Calls that throw *)

Lemma addAlbum_thrown albumData now s e s' :
  addAlbum albumData now s = (Thrown e, s') → e = DuplicateError ∧ s' = s.
Proof.
  unfold addAlbum, bind, getAlbums.
  destruct (list_find _ (albumsOf s)) as [[i a]|]; [|done].
  by intros [= <- <-].
Qed.

Lemma updateAlbumRank_thrown x r s e s' :
  updateAlbumRank x r s = (Thrown e, s') → e = NotFoundError ∧ s' = s.
Proof.
  unfold updateAlbumRank, bind, getAlbums.
  destruct (list_find _ (albumsOf s)) as [[i a]|]; [done|].
  by intros [= <- <-].
Qed.

Lemma deleteAlbum_thrown x s e s' :
  deleteAlbum x s = (Thrown e, s') → e = NotFoundError ∧ s' = s.
Proof.
  unfold deleteAlbum, bind, getAlbums.
  destruct (list_find _ (albumsOf s)) as [[i a]|]; [done|].
  by intros [= <- <-].
Qed.

Lemma reorderAlbums_thrown x y s e s' :
  reorderAlbums x y s = (Thrown e, s') → e = NotFoundError ∧ s' = s.
Proof.
  unfold reorderAlbums, bind at 1, getAlbums at 1.
  destruct (list_find _ (albumsOf s)) as [[i a]|] eqn:Hx; [|by intros [= <- <-]].
  destruct (list_find (λ a, id a = y) (albumsOf s)) as [[j b]|] eqn:Hy;
    [|by intros [= <- <-]].
  unfold bind. by rewrite (updateAlbumRank_found _ _ _ _ _ Hx).
Qed.

(** X1.  No partial writes: a call of [addAlbum], [updateAlbumRank],
    [deleteAlbum], [recordBattle] or [reorderAlbums] that throws leaves the
    store exactly as it was; also [recordBattle], which has by then pushed
    ids and added points on the array in memory. *)
Theorem thrown_call_writes_nothing op s e s' :
  runOp op s = (Some e, s') → s' = s.
Proof.
  destruct op as [d now|x r|x|x y w|x y]; unfold runOp, thrown; cbn [fst snd].
  - destruct (addAlbum d now s) as [[v|e'] s''] eqn:H; cbn; [done|].
    intros [= _ <-]. by apply addAlbum_thrown in H as [_ ->].
  - destruct (updateAlbumRank x r s) as [[v|e'] s''] eqn:H; cbn; [done|].
    intros [= _ <-]. by apply updateAlbumRank_thrown in H as [_ ->].
  - destruct (deleteAlbum x s) as [[v|e'] s''] eqn:H; cbn; [done|].
    intros [= _ <-]. by apply deleteAlbum_thrown in H as [_ ->].
  - destruct (recordBattle x y w s) as [[v|e'] s''] eqn:H; cbn; [done|].
    intros [= _ <-]. by apply recordBattle_thrown in H as ->.
  - destruct (reorderAlbums x y s) as [[v|e'] s''] eqn:H; cbn; [done|].
    intros [= _ <-]. by apply reorderAlbums_thrown in H as [_ ->].
Qed.

Lemma thrown_call_writes_nothing_witness :
  (runOp (OpBattle "A" "B" (Some "C")) abc).1 = Some InvalidWinnerError ∧
  (runOp (OpBattle "A" "B" (Some "C")) abc).2 = abc.
Proof.
  split; [reflexivity|].
  exact (thrown_call_writes_nothing (OpBattle "A" "B" (Some "C")) abc
           InvalidWinnerError _ eq_refl).
Defined.

(** ** Ids that are not in the collection *)

Lemma find_id_None (x : string) (l : list Album) :
  list_find (λ a, id a = x) l = None ↔ x ∉ id <$> l.
Proof.
  rewrite list_find_None, Forall_forall, list_elem_of_fmap. split.
  - intros H (a & -> & Ha). by apply (H a).
  - intros H a Ha Hx. apply H. by exists a.
Qed.

Lemma find_id_is_Some (x : string) (l : list Album) :
  x ∈ id <$> l → ∃ (i : nat) a, list_find (λ a, id a = x) l = Some (i, a).
Proof.
  intros Hin. destruct (list_find (λ a, id a = x) l) as [[i a]|] eqn:Hf; [eauto|].
  by apply find_id_None in Hf.
Qed.

(** X2.  The functions that take an id throw the not-found error exactly
    when an id they are given is the id of no album of the collection:
    [updateAlbumRank] and [deleteAlbum] for their one id, [recordBattle] and
    [reorderAlbums] when one of their two ids is missing.  In particular all
    four throw it on an absent, corrupt or empty store. *)
Theorem not_found_iff s :
  let ids := id <$> albumsOf s in
  (∀ x r, updateAlbumRank x r s = (Thrown NotFoundError, s) ↔ x ∉ ids) ∧
  (∀ x, deleteAlbum x s = (Thrown NotFoundError, s) ↔ x ∉ ids) ∧
  (∀ x y w, recordBattle x y w s = (Thrown NotFoundError, s) ↔ x ∉ ids ∨ y ∉ ids) ∧
  (∀ x y, reorderAlbums x y s = (Thrown NotFoundError, s) ↔ x ∉ ids ∨ y ∉ ids).
Proof.
  intros ids. split_and!.
  - intros x r. unfold ids. rewrite <-find_id_None. unfold updateAlbumRank, bind, getAlbums.
    destruct (list_find _ (albumsOf s)) as [[i a]|]; [|done].
    split; [|done]. unfold setItem, ret. by intros [= _].
  - intros x. unfold ids. rewrite <-find_id_None. unfold deleteAlbum, bind, getAlbums.
    destruct (list_find _ (albumsOf s)) as [[i a]|]; [|done].
    split; [|done]. unfold setItem. by intros [= _].
  - intros x y w. unfold ids. rewrite <-!find_id_None.
    unfold recordBattle, bind, getAlbums.
    destruct (list_find _ (albumsOf s)) as [[i a]|]; [|by split; [left|]].
    destruct (list_find (λ a, id a = y) (albumsOf s)) as [[j b]|]; [|by split; [right|]].
    split; [|by intros [|]].
    case_decide; [done|].
    destruct (awardPoints _ _ _ _ _ _) as [[scored pending]|]; [|done].
    unfold setItem, ret. by intros [= _].
  - intros x y. unfold ids. rewrite <-!find_id_None.
    unfold reorderAlbums, bind at 1, getAlbums at 1.
    destruct (list_find _ (albumsOf s)) as [[i a]|] eqn:Hx; [|by split; [left|]].
    destruct (list_find (λ a, id a = y) (albumsOf s)) as [[j b]|]; [|by split; [right|]].
    split; [|by intros [|]].
    unfold bind. by rewrite (updateAlbumRank_found _ _ _ _ _ Hx).
Qed.

Lemma not_found_iff_witness :
  deleteAlbum "A" Corrupt = (Thrown NotFoundError, Corrupt) ∧
  recordBattle "A" "Z" None abc = (Thrown NotFoundError, abc).
Proof.
  destruct (not_found_iff Corrupt) as (_ & Hd & _).
  destruct (not_found_iff abc) as (_ & _ & Hb & _).
  split.
  - apply Hd. vm_compute. apply not_elem_of_nil.
  - apply Hb. right. apply (bool_decide_unpack _). by vm_compute.
Defined.

(** ** Deleting an album *)

Lemma sorted_delete {A} (R : relation A) (l : list A) (i : nat) :
  StronglySorted R l → StronglySorted R (delete i l).
Proof.
  intros Hs. revert i. induction Hs as [|a l Hs IH Ha]; intros i; [constructor|].
  destruct i as [|i]; [done|]. cbn [delete list_delete].
  apply StronglySorted_cons. split; [|apply IH].
  eapply Forall_forall. intros y Hy. rewrite Forall_forall in Ha. apply Ha.
  eapply elem_of_sublist; [exact Hy|apply sublist_delete].
Qed.

Lemma take_drop_lookup {A} (l : list A) (i : nat) (a : A) :
  l !! i = Some a → l = take i l ++ a :: drop (S i) l ∧ length (take i l) = i.
Proof.
  intros Hi. split.
  - by rewrite <-(take_drop_middle l i a Hi) at 1.
  - apply length_take_le. apply lookup_lt_Some in Hi. lia.
Qed.

(** The array [deleteAlbum] writes. *)
Lemma deleteAlbum_found s x (i : nat) a :
  list_find (λ c, id c = x) (albumsOf s) = Some (i, a) →
  deleteAlbum x s
  = (Returned tt, Stored (toStored <$> assignRanks (delete i (albumsOf s)))).
Proof.
  intros Hf. unfold deleteAlbum, bind, getAlbums, setItem. rewrite Hf.
  destruct (find_id_lookup _ _ _ _ Hf) as [Hi _].
  rewrite (albumsOf_rank _ _ _ Hi).
  destruct (take_drop_lookup _ _ _ Hi) as [Hl Hlen].
  pose proof (delete_middle_ranks (take i (albumsOf s)) (drop (S i) (albumsOf s)) a)
    as Hd. cbv zeta in Hd. rewrite Hlen, <-Hl, albumsOf_assignRanks in Hd.
  by rewrite Hd, <-delete_take_drop.
Qed.

(** X3.  [deleteAlbum] of an id of the collection removes the first album
    with this id and nothing else: the collection written, which is also
    what the next read returns, has the other albums in the order they had,
    with their points and opponents (the id of the deleted album stays in
    the [battledWith] of its opponents), and the ranks 1..N-1: an album
    that stood before the deleted one keeps its rank, one that stood behind
    moves up by one. *)
Theorem deleteAlbum_removes s x (i : nat) a :
  list_find (λ c, id c = x) (albumsOf s) = Some (i, a) →
  ∃ s',
    deleteAlbum x s = (Returned tt, s') ∧
    s' = Stored (toStored <$> albumsOf s') ∧
    eraseRank <$> albumsOf s' = eraseRank <$> delete i (albumsOf s) ∧
    Z.of_nat (length (albumsOf s')) = Z.of_nat (length (albumsOf s)) - 1 ∧
    rank <$> albumsOf s' = seqZ 1 (Z.of_nat (length (albumsOf s)) - 1) ∧
    (∀ (k : nat) b, albumsOf s !! k = Some b → k ≠ i →
       ∃ b', b' ∈ albumsOf s' ∧ eraseRank b' = eraseRank b ∧
         rank b' = if decide (k < i)%nat then rank b else rank b - 1).
Proof.
  intros Hf. destruct (find_id_lookup _ _ _ _ Hf) as [Hi _].
  pose proof (lookup_lt_Some _ _ _ Hi) as Hlt.
  eexists. split; [by apply (deleteAlbum_found s x i a)|].
  assert (albumsOf (Stored (toStored <$> assignRanks (delete i (albumsOf s))))
          = assignRanks (delete i (albumsOf s))) as Hread.
  { rewrite albumsOf_Stored_sorted; [apply assignRanks_idem|].
    apply assignRanks_sorted, sorted_delete, albumsOf_sorted. }
  rewrite Hread.
  assert (length (delete i (albumsOf s)) = (length (albumsOf s) - 1)%nat) as Hlen.
  { rewrite length_delete; [done|eauto]. }
  split_and!.
  - done.
  - apply assignRanks_erase.
  - rewrite assignRanks_length, Hlen. lia.
  - rewrite assignRanks_ranks, Hlen. f_equal. lia.
  - intros k b Hk Hne. pose proof (albumsOf_rank _ _ _ Hk) as Hr.
    destruct (decide (k < i)%nat) as [Hki|Hki].
    + exists (set_rank (Z.of_nat k + 1) b). split_and!; [|done|by rewrite Hr].
      apply (list_elem_of_lookup_2 _ k).
      by rewrite assignRanks_lookup, list_lookup_delete_lt, Hk.
    + exists (set_rank (Z.of_nat (k - 1) + 1) b). destruct k as [|k]; [lia|].
      split_and!; [|done|cbn [rank set_rank]; lia].
      apply (list_elem_of_lookup_2 _ k).
      replace (S k - 1)%nat with k by lia.
      by rewrite assignRanks_lookup, list_lookup_delete_ge, Hk by lia.
Qed.

Lemma deleteAlbum_removes_witness :
  ∃ s', deleteAlbum "B" abc = (Returned tt, s') ∧ rank <$> albumsOf s' = [1; 2].
Proof.
  destruct (deleteAlbum_removes abc "B" 1
              (mkAlbum "B" "TB" "artist" "1999" None "mb" 2 0 []) eq_refl)
    as (s' & Hd & _ & _ & _ & Hr & _).
  exists s'. split; [exact Hd|exact Hr].
Defined.

(** ** Adding an album, again *)

Lemma sorted_snoc_least (l : list Album) (x : Album) :
  StronglySorted (desc points) l → Forall (λ a, points x <= points a) l →
  StronglySorted (desc points) (l ++ [x]).
Proof.
  intros Hs Hge. apply StronglySorted_app. split_and!; [|done|repeat constructor].
  intros a b Ha ->%list_elem_of_singleton. rewrite Forall_forall in Hge.
  by apply Hge.
Qed.

(** X4.  [addAlbum] of a search result whose MusicBrainz id is not in the
    collection returns the new album: the id made from the clock, the
    fields of the search result, no points, no opponents and the rank
    N + 1; it writes the collection read with the new album at its end.
    When no album has negative points, the next read returns exactly this:
    the old albums unchanged and the new album last.  On an empty, absent
    or corrupt store the collection written is the new album alone, with
    rank 1. *)
Theorem addAlbum_appends s albumData now :
  Forall (λ a, mbid a ≠ sr_id albumData) (albumsOf s) →
  ∃ new s',
    addAlbum albumData now s = (Returned new, s') ∧
    new = mkAlbum (freshId now) (sr_title albumData) (sr_artist albumData)
            (sr_releaseYear albumData) (sr_coverArtUrl albumData)
            (sr_id albumData) (Z.of_nat (length (albumsOf s)) + 1) 0 [] ∧
    s' = Stored (toStored <$> (albumsOf s ++ [new])) ∧
    eraseRank <$> albumsOf s' ≡ₚ eraseRank <$> (albumsOf s ++ [new]) ∧
    rank <$> albumsOf s' = seqZ 1 (Z.of_nat (length (albumsOf s)) + 1) ∧
    (Forall (λ a, 0 <= points a) (albumsOf s) → albumsOf s' = albumsOf s ++ [new]) ∧
    (albumsOf s = [] → rank new = 1 ∧ albumsOf s' = [new]).
Proof.
  intros Hdup. pose proof (addAlbum_new s albumData now Hdup) as Hadd.
  cbv zeta in Hadd. rewrite highestRank_albumsOf in Hadd.
  set (new := mkAlbum _ _ _ _ _ _ _ _ _) in *.
  exists new, (Stored (toStored <$> (albumsOf s ++ [new]))).
  assert (Forall (λ a, 0 <= points a) (albumsOf s) →
          albumsOf (Stored (toStored <$> (albumsOf s ++ [new]))) = albumsOf s ++ [new])
    as Hlast.
  { intros Hnn. rewrite albumsOf_Stored_sorted.
    - apply list_eq. intros k. rewrite assignRanks_lookup.
      destruct (decide (k < length (albumsOf s))%nat) as [Hk|Hk].
      + rewrite lookup_app_l by done.
        destruct (albumsOf s !! k) as [a|] eqn:Ha; [|done]. cbn.
        by rewrite <-(albumsOf_rank _ _ _ Ha), set_rank_rank.
      + rewrite lookup_app_r by lia.
        destruct (k - length (albumsOf s))%nat as [|m] eqn:Hm; [|done].
        cbn. subst new. unfold set_rank. cbn. do 2 f_equal.
        assert (k = length (albumsOf s)) as -> by lia. done.
    - apply sorted_snoc_least; [apply albumsOf_sorted|done]. }
  split_and!; try done.
  - rewrite albumsOf_Stored, assignRanks_erase. f_equiv. apply sortDesc_perm.
  - rewrite albumsOf_Stored, assignRanks_ranks, sortDesc_length, length_app.
    f_equal. cbn. lia.
  - intros Hnil. split; [subst new; cbn [rank]; by rewrite Hnil|].
    rewrite Hlast; [by rewrite Hnil|]. rewrite Hnil. constructor.
Qed.

Lemma addAlbum_appends_witness :
  ∃ new s',
    addAlbum (mkSearchResult "md" "TD" "artist" "2001" None) 1700000000000 abc
      = (Returned new, s') ∧
    id <$> albumsOf s' = ["A"; "B"; "C"; "album_1700000000000"] ∧ rank new = 4.
Proof.
  destruct (addAlbum_appends abc (mkSearchResult "md" "TD" "artist" "2001" None)
              1700000000000)
    as (new & s' & Hadd & Hnew & _ & _ & _ & Hlast & _).
  - vm_compute. repeat constructor; discriminate.
  - exists new, s'. split; [exact Hadd|]. split.
    + rewrite Hlast; [by rewrite Hnew|]. vm_compute. repeat constructor; discriminate.
    + by rewrite Hnew.
Defined.

(** ** Updating a rank *)

(** X5.  [updateAlbumRank] of an id of the collection, with any number as
    new rank, in the range 1..N or not, returns the album with the new rank
    and writes the albums in the order read, with no change but to ranks,
    the album found carrying the new rank.  The next read assigns the ranks
    anew from the order: it returns what was read before the call. *)
Theorem updateAlbumRank_ranks_only s x r (i : nat) a :
  list_find (λ c, id c = x) (albumsOf s) = Some (i, a) →
  ∃ written,
    updateAlbumRank x r s = (Returned (set_rank r a), Stored (toStored <$> written)) ∧
    eraseRank <$> written = eraseRank <$> albumsOf s ∧
    written !! i = Some (set_rank r a) ∧
    albumsOf (Stored (toStored <$> written)) = albumsOf s.
Proof.
  intros Hf. destruct (find_id_lookup _ _ _ _ Hf) as [Hi _].
  exists (reranked i (rank a) r (albumsOf s)). split_and!.
  - by apply updateAlbumRank_found.
  - apply reranked_erase.
  - unfold reranked. rewrite list_lookup_alter_eq, list_lookup_fmap, Hi. cbn.
    f_equal. rewrite <-(set_rank_eraseRank _ (shiftRank _ _ _)), shiftRank_erase.
    apply set_rank_eraseRank.
  - apply albumsOf_Stored_ranks_only, reranked_erase.
Qed.

Lemma updateAlbumRank_ranks_only_witness :
  ∃ written,
    updateAlbumRank "B" 17 abc
      = (Returned (mkAlbum "B" "TB" "artist" "1999" None "mb" 17 0 []),
         Stored (toStored <$> written)) ∧
    albumsOf (Stored (toStored <$> written)) = albumsOf abc.
Proof.
  destruct (updateAlbumRank_ranks_only abc "B" 17 1
              (mkAlbum "B" "TB" "artist" "1999" None "mb" 2 0 []) eq_refl)
    as (written & Hu & _ & _ & Hread).
  exists written. split; [exact Hu|exact Hread].
Defined.

(** ** The outcomes of [recordBattle] *)


Lemma awardPoints_gains i1 i2 x y w (l : list Album) :
  (awardPoints i1 i2 x y w l = None ↔ gains x y w = None).
Proof. unfold awardPoints, gains. destruct w; repeat case_decide; done. Qed.

(** The four outcomes of a call. *)
Lemma recordBattle_cases s x y w :
  ((list_find (λ c, id c = x) (albumsOf s) = None
    ∨ list_find (λ c, id c = y) (albumsOf s) = None)
   ∧ recordBattle x y w s = (Thrown NotFoundError, s))
  ∨ ∃ (i j : nat) a b,
      list_find (λ c, id c = x) (albumsOf s) = Some (i, a) ∧
      list_find (λ c, id c = y) (albumsOf s) = Some (j, b) ∧
      ((y ∈ battledWith a ∧ recordBattle x y w s = (Thrown AlreadyBattledError, s))
       ∨ ((y ∉ battledWith a) ∧ gains x y w = None
          ∧ recordBattle x y w s = (Thrown InvalidWinnerError, s))
       ∨ ((y ∉ battledWith a) ∧ gains x y w ≠ None
          ∧ ∃ res s', recordBattle x y w s = (Returned res, s'))).
Proof.
  unfold recordBattle, bind, getAlbums.
  destruct (list_find _ (albumsOf s)) as [[i a]|] eqn:Hx; [|left; by split; [left|]].
  destruct (list_find (λ c, id c = y) (albumsOf s)) as [[j b]|] eqn:Hy;
    [|left; by split; [right|]].
  right. exists i, j, a, b. split; [done|]. split; [done|].
  destruct (find_id_lookup _ _ _ _ Hx) as [_ ->].
  destruct (find_id_lookup _ _ _ _ Hy) as [_ ->].
  case_decide as Hb; [by left|]. right.
  destruct (awardPoints i j _ _ w _) as [[scored pending]|] eqn:Ha.
  - right. split; [done|]. split; [|unfold setItem, ret; eauto].
    rewrite <-(awardPoints_gains i j). by rewrite Ha.
  - left. split; [done|]. split; [|done]. by apply awardPoints_gains in Ha.
Qed.



(** ** The result record of [recordBattle] *)

Lemma objects_lookup (l : list Album) (k : nat) :
  objects l !! k = pair k <$> l !! k.
Proof. unfold objects. by rewrite list_lookup_imap. Qed.

Lemma objects_tags (l : list Album) : fst <$> objects l = seq 0 (length l).
Proof.
  apply list_eq. intros k. rewrite list_lookup_fmap, objects_lookup.
  destruct (l !! k) as [a|] eqn:Ha; cbn.
  - apply lookup_lt_Some in Ha. by rewrite lookup_seq_lt.
  - apply lookup_ge_None in Ha. symmetry. apply lookup_ge_None.
    by rewrite length_seq.
Qed.

Lemma rerank_lookup (objs : list (nat * Album)) (p : nat) :
  rerank objs !! p
  = (λ o, (o.1, set_rank (Z.of_nat p + 1) o.2))
      <$> sortDesc (λ o, points o.2) objs !! p.
Proof. unfold rerank. by rewrite list_lookup_imap. Qed.

Lemma rerank_tags (objs : list (nat * Album)) :
  fst <$> rerank objs ≡ₚ fst <$> objs.
Proof.
  assert (fst <$> rerank objs = fst <$> sortDesc (λ o, points o.2) objs) as ->.
  { apply list_eq. intros p. rewrite !list_lookup_fmap, rerank_lookup.
    by destruct (sortDesc _ objs !! p). }
  apply fmap_Permutation, sortDesc_perm.
Qed.

(** The object with the reference [t] after the sort: it sits at some
    position [p] of the array, with the rank [p + 1]. *)
Lemma deref_rerank (scored : list Album) (t : nat) c :
  scored !! t = Some c →
  ∃ p : nat,
    deref t (rerank (objects scored)) = Some (set_rank (Z.of_nat p + 1) c) ∧
    assignRanks (sortDesc points scored) !! p = Some (set_rank (Z.of_nat p + 1) c).
Proof.
  intros Ht.
  assert ((t, c) ∈ sortDesc (λ o : nat * Album, points o.2) (objects scored)) as Hin.
  { rewrite sortDesc_perm. apply (list_elem_of_lookup_2 _ t).
    by rewrite objects_lookup, Ht. }
  apply list_elem_of_lookup in Hin as [p Hp].
  assert (rerank (objects scored) !! p = Some (t, set_rank (Z.of_nat p + 1) c)) as Hr.
  { by rewrite rerank_lookup, Hp. }
  exists p. split.
  - unfold deref.
    assert (list_find (λ o : nat * Album, o.1 = t) (rerank (objects scored))
            = Some (p, (t, set_rank (Z.of_nat p + 1) c))) as ->; [|done].
    apply list_find_Some. split_and!; [done..|].
    intros q o Hq Hlt Heq.
    assert (NoDup (fst <$> rerank (objects scored))) as Hnd.
    { rewrite rerank_tags, objects_tags. apply NoDup_seq. }
    assert (q = p); [|lia].
    apply (NoDup_lookup _ q p t Hnd); rewrite list_lookup_fmap.
    + by rewrite Hq; cbn; rewrite Heq.
    + by rewrite Hr.
  - rewrite <-rerank_objects, list_lookup_fmap, Hr. done.
Qed.

Lemma awardPoints_refs i1 i2 x y w (l scored : list Album) pending :
  awardPoints i1 i2 x y w l = Some (scored, pending) →
  match w with
  | None => winnerRef pending = None ∧ loserRef pending = None
  | Some v =>
      if decide (v = x)
      then winnerRef pending = Some i1 ∧ loserRef pending = Some i2
      else winnerRef pending = Some i2 ∧ loserRef pending = Some i1
  end.
Proof.
  unfold awardPoints. destruct w as [v|]; repeat case_decide; intros; by simplify_eq.
Qed.

(** X7.  The result record of a successful [recordBattle].  On a draw the
    winner and the loser are [null].  On a decisive outcome they are the
    two album objects as the call leaves them, which is how they stand in
    the collection written: each is found there at some position, carrying
    the rank of that position after the re-sort, the winner id and the
    loser id, each other's id in [battledWith] and, when the two ids
    differ, 3 points more for the winner and the same points for the
    loser. *)
Theorem recordBattle_result s x y w res s' (i j : nat) a b :
  list_find (λ c, id c = x) (albumsOf s) = Some (i, a) →
  list_find (λ c, id c = y) (albumsOf s) = Some (j, b) →
  recordBattle x y w s = (Returned res, s') →
  match w with
  | None => winner res = None ∧ loser res = None ∧ isDraw res = true
  | Some v =>
      isDraw res = false ∧
      ∃ (pw pl : nat) cw cl,
        winner res = Some cw ∧ loser res = Some cl ∧
        albumsOf s' !! pw = Some cw ∧ albumsOf s' !! pl = Some cl ∧
        rank cw = Z.of_nat pw + 1 ∧ rank cl = Z.of_nat pl + 1 ∧
        id cw = v ∧ id cl = (if decide (v = x) then y else x) ∧
        id cl ∈ battledWith cw ∧ id cw ∈ battledWith cl ∧
        (x ≠ y →
         points cw = points (if decide (v = x) then a else b) + 3 ∧
         points cl = points (if decide (v = x) then b else a))
  end.
Proof.
  intros Hx Hy Hrb.
  destruct (recordBattle_inv _ _ _ _ _ _ Hrb)
    as (i' & a' & j' & b' & scored & pending & Hx' & Hy' & _ & Ha & -> & ->).
  assert (i' = i ∧ a' = a ∧ j' = j ∧ b' = b) as (-> & -> & -> & ->)
    by (split_and!; congruence).
  destruct (awardPoints_lookup _ _ _ _ _ _ _ _ Ha) as (d & Hd & Hk).
  destruct (awardPoints_pending _ _ _ _ _ _ _ _ Ha) as (Hdraw & _).
  pose proof (awardPoints_refs _ _ _ _ _ _ _ _ Ha) as Hrefs.
  pose proof (find_id_same_index _ _ _ _ _ _ _ Hx Hy) as Hij.
  destruct (find_id_lookup _ _ _ _ Hx) as [Hi Hida].
  destruct (find_id_lookup _ _ _ _ Hy) as [Hj Hidb].
  rewrite albumsOf_Stored_normal. unfold resolve. cbn [winner loser isDraw].
  destruct w as [v|]; [|by destruct Hrefs as [-> ->]].
  split; [by rewrite Hdraw|].
  destruct (deref_rerank scored i _ ltac:(by rewrite Hk, Hi)) as (pi & Hdi & Hpi).
  destruct (deref_rerank scored j _ ltac:(by rewrite Hk, Hj)) as (pj & Hdj & Hpj).
  unfold gains in Hd. unfold slotGain, slotPushed in *.
  destruct (decide (v = x)) as [->|Hvx].
  - destruct Hrefs as [-> ->]. injection Hd as <-.
    cbn [mbind option_bind]. rewrite Hdi, Hdj.
    exists pi, pj. eexists _, _.
    split; [reflexivity|]. split; [reflexivity|].
    split; [exact Hpi|]. split; [exact Hpj|].
    split; [reflexivity|]. split; [reflexivity|].
    split; [exact Hida|]. split; [exact Hidb|].
    cbn [id battledWith points set_rank battleUpdate]. rewrite Hida, Hidb.
    split_and!.
    + rewrite !elem_of_app. right. rewrite decide_True by done. left. left.
    + rewrite !elem_of_app. right. right.
      rewrite (decide_True (P := j = j)) by done. left.
    + intros Hne. assert (i ≠ j) as Hneq by (intros ?; apply Hne; by apply Hij).
      cbn [fst snd]. repeat case_decide; try lia; congruence.
  - destruct Hrefs as [-> ->].
    destruct (decide (v = y)) as [->|Hvy]; [|done]. injection Hd as <-.
    cbn [mbind option_bind]. rewrite Hdi, Hdj.
    exists pj, pi. eexists _, _.
    split; [reflexivity|]. split; [reflexivity|].
    split; [exact Hpj|]. split; [exact Hpi|].
    split; [reflexivity|]. split; [reflexivity|].
    split; [exact Hidb|]. split; [exact Hida|].
    cbn [id battledWith points set_rank battleUpdate]. rewrite Hida, Hidb.
    split_and!.
    + rewrite !elem_of_app. right. right.
      rewrite (decide_True (P := j = j)) by done. left.
    + rewrite !elem_of_app. right. rewrite decide_True by done. left. left.
    + intros Hne. assert (i ≠ j) as Hneq by (intros ?; apply Hne; by apply Hij).
      cbn [fst snd]. repeat case_decide; try lia; congruence.
Qed.

Lemma recordBattle_result_witness :
  ∃ res s' cw,
    recordBattle "B" "C" (Some "C") abc = (Returned res, s') ∧
    winner res = Some cw ∧ id cw = "C" ∧ points cw = 3 ∧ rank cw = 1.
Proof.
  destruct (recordBattle "B" "C" (Some "C") abc) as [[res|e] s'] eqn:Hrb;
    [|vm_compute in Hrb; discriminate].
  pose proof (recordBattle_result abc "B" "C" (Some "C") res s' 1 2
                (mkAlbum "B" "TB" "artist" "1999" None "mb" 2 0 [])
                (mkAlbum "C" "TC" "artist" "1999" None "mc" 3 0 [])
                eq_refl eq_refl Hrb)
    as (_ & pw & pl & cw & cl & Hw & _ & Hpw & _ & Hrw & _ & Hid & _ & _ & _ & Hp).
  destruct Hp as [Hp _]; [discriminate|].
  exists res, s', cw. split; [reflexivity|]. split; [exact Hw|]. split; [exact Hid|].
  split; [exact Hp|].
  vm_compute in Hrb. injection Hrb as <- <-. vm_compute in Hw. by injection Hw as <-.
Defined.

(** ** What a call does to the collection *)

Lemma erase_perm_fmap {B} (f : Album → B) (l l' : list Album) :
  (∀ a, f (eraseRank a) = f a) →
  eraseRank <$> l ≡ₚ eraseRank <$> l' → f <$> l ≡ₚ f <$> l'.
Proof.
  intros Hf Hp.
  assert (∀ m : list Album, f <$> m = f <$> (eraseRank <$> m)) as Hm.
  { intros m. rewrite <-list_fmap_compose. apply list_fmap_ext. intros _ a _.
    symmetry. apply Hf. }
  rewrite (Hm l), (Hm l'). by apply fmap_Permutation.
Qed.

Lemma erase_perm_elem (l l' : list Album) a :
  eraseRank <$> l ≡ₚ eraseRank <$> l' → a ∈ l →
  ∃ a', a' ∈ l' ∧ eraseRank a' = eraseRank a.
Proof.
  intros Hp Ha. apply (list_elem_of_fmap_2 eraseRank) in Ha. rewrite Hp in Ha.
  apply list_elem_of_fmap in Ha as (a' & Heq & Ha'). eauto.
Qed.

(** The collection read after a call, against the collection read before
    it, ranks and order apart: the same albums when the call throws or
    only writes ranks; one album more after an add; one album less after a
    delete; the two albums updated after a battle. *)
Lemma runOp_effect op s :
  let l := albumsOf s in
  let l' := albumsOf (runOp op s).2 in
  eraseRank <$> l' ≡ₚ eraseRank <$> l
  ∨ (∃ albumData now new,
       op = OpAdd albumData now ∧ (runOp op s).1 = None ∧
       Forall (λ a, mbid a ≠ sr_id albumData) l ∧
       id new = freshId now ∧ mbid new = sr_id albumData ∧
       points new = 0 ∧ battledWith new = [] ∧
       eraseRank <$> l' ≡ₚ eraseRank <$> (l ++ [new]))
  ∨ (∃ x (i : nat) a,
       op = OpDelete x ∧ (runOp op s).1 = None ∧
       list_find (λ c, id c = x) l = Some (i, a) ∧
       eraseRank <$> l' = eraseRank <$> delete i l)
  ∨ (∃ x y w (i1 i2 : nat) a1 a2 d scored,
       op = OpBattle x y w ∧ (runOp op s).1 = None ∧
       list_find (λ c, id c = x) l = Some (i1, a1) ∧
       list_find (λ c, id c = y) l = Some (i2, a2) ∧
       (y ∉ battledWith a1) ∧ gains x y w = Some d ∧
       (∀ k : nat, scored !! k
          = battleUpdate (slotGain i1 i2 d k) (slotPushed i1 i2 x y k) <$> l !! k) ∧
       eraseRank <$> l' ≡ₚ eraseRank <$> scored).
Proof.
  intros l l'. subst l l'.
  destruct op as [d now|x r|x|x y w|x y]; unfold runOp, thrown; cbn [fst snd].
  - destruct (addAlbum d now s) as [[v|e] s'] eqn:H; cbn [fst snd].
    + right. left. revert H. unfold addAlbum, bind, getAlbums.
      destruct (list_find _ (albumsOf s)) as [[i a]|] eqn:Hf; [done|].
      unfold setItem, ret. intros [= <- <-].
      apply list_find_None in Hf.
      match goal with |- context [albumsOf s ++ [?n]] => exists d, now, n end.
      split_and!; [done..|].
      rewrite albumsOf_Stored, assignRanks_erase. f_equiv. apply sortDesc_perm.
    + left. by apply addAlbum_thrown in H as [_ ->].
  - left. destruct (updateAlbumRank x r s) as [[v|e] s'] eqn:H; cbn [snd].
    + revert H. unfold updateAlbumRank at 1, bind, getAlbums.
      destruct (list_find _ (albumsOf s)) as [[i a]|] eqn:Hf; [|done].
      fold (reranked i (rank a) r (albumsOf s)). unfold setItem, ret.
      intros [= _ <-].
      by rewrite (albumsOf_Stored_ranks_only s _ (reranked_erase _ _ _ _)).
    + by apply updateAlbumRank_thrown in H as [_ ->].
  - destruct (list_find (λ c, id c = x) (albumsOf s)) as [[i a]|] eqn:Hf.
    + right. right. left. rewrite (deleteAlbum_found s x i a Hf). cbn [fst snd].
      exists x, i, a. split_and!; [done..|].
      rewrite albumsOf_Stored_sorted.
      * by rewrite assignRanks_idem, assignRanks_erase.
      * apply assignRanks_sorted, sorted_delete, albumsOf_sorted.
    + left. assert (deleteAlbum x s = (Thrown NotFoundError, s)) as ->; [|done].
      unfold deleteAlbum, bind, getAlbums. by rewrite Hf.
  - destruct (recordBattle x y w s) as [[res|e] s'] eqn:Hrb; cbn [fst snd].
    + right. right. right.
      destruct (recordBattle_returned _ _ _ _ _ _ Hrb)
        as (i1 & a1 & i2 & a2 & d & scored & H1 & H2 & Hb & Hd & Hk & _ & Hread & _).
      exists x, y, w, i1, i2, a1, a2, d, scored. split_and!; try done.
      rewrite Hread, assignRanks_erase. f_equiv. apply sortDesc_perm.
    + left. by apply recordBattle_thrown in Hrb as ->.
  - left. destruct (reorderAlbums x y s) as [[v|e] s'] eqn:H; cbn [snd].
    + by destruct (reorderAlbums_read_unchanged _ _ _ _ _ H) as [_ ->].
    + by apply reorderAlbums_thrown in H as [_ ->].
Qed.

(** A field that neither the ranks nor a battle touch, after a call. *)
Lemma runOp_field {B} (f : Album → B) op s :
  (∀ a, f (eraseRank a) = f a) → (∀ g p a, f (battleUpdate g p a) = f a) →
  let l := albumsOf s in
  let l' := albumsOf (runOp op s).2 in
  f <$> l' ≡ₚ f <$> l
  ∨ (∃ albumData now new,
       op = OpAdd albumData now ∧ Forall (λ a, mbid a ≠ sr_id albumData) l ∧
       id new = freshId now ∧ mbid new = sr_id albumData ∧
       f <$> l' ≡ₚ (f <$> l) ++ [f new])
  ∨ (∃ i : nat, f <$> l' = delete i (f <$> l)).
Proof.
  intros Hrank Hbattle l l'. subst l l'.
  destruct (runOp_effect op s)
    as [Hp|[(d & now & new & -> & _ & Hm & Hid & Hmb & _ & _ & Hp)
           |[(x & i & a & -> & _ & _ & He)
            |(x & y & w & i1 & i2 & a1 & a2 & d & scored & -> & _ & _ & _ & _ & _
              & Hk & Hp)]]].
  - left. by apply erase_perm_fmap.
  - right. left. exists d, now, new. split_and!; [done..|].
    rewrite (erase_perm_fmap f _ _ Hrank Hp). by rewrite fmap_app.
  - right. right. exists i. rewrite <-list_fmap_delete.
    assert (∀ m : list Album, f <$> m = f <$> (eraseRank <$> m)) as Hm.
    { intros m. rewrite <-list_fmap_compose. apply list_fmap_ext. intros _ c _.
      symmetry. apply Hrank. }
    by rewrite Hm, He, <-Hm.
  - left. rewrite (erase_perm_fmap f _ _ Hrank Hp).
    assert (f <$> scored = f <$> albumsOf s) as ->; [|done].
    apply list_eq. intros k. rewrite !list_lookup_fmap, Hk.
    destruct (albumsOf s !! k); [|done]. cbn. by rewrite Hbattle.
Qed.

Lemma runOps_invariant (P : Storage → Prop) :
  (∀ op s, P s → P (runOp op s).2) → ∀ ops s, P s → P (runOps ops s).
Proof.
  intros Hstep ops. unfold runOps.
  induction ops as [|op ops IH]; intros s Hs; [done|].
  cbn [foldl]. by apply IH, Hstep.
Qed.

(** ** Invariants of the collection *)

(** X8.  No MusicBrainz id twice: when the albums of the collection have
    pairwise different [mbid]s, they still have after any sequence of calls
    of [addAlbum], [updateAlbumRank], [deleteAlbum], [recordBattle] and
    [reorderAlbums], with any arguments, whether the calls return or throw.
    The duplicate test of [addAlbum] is the only place an [mbid] comes in,
    and no call changes the [mbid] of an album. *)
Theorem runOps_keeps_mbid_unique ops s :
  NoDup (mbid <$> albumsOf s) → NoDup (mbid <$> albumsOf (runOps ops s)).
Proof.
  apply (runOps_invariant (λ s, NoDup (mbid <$> albumsOf s))). clear.
  intros op s Hnd.
  destruct (runOp_field mbid op s) as [Hp|[(d & now & new & _ & Hm & _ & Hmb & Hp)|[i Hd]]];
    [done|done|..].
  - by rewrite Hp.
  - rewrite Hp, Hmb. apply NoDup_app. split_and!; [done| |apply NoDup_singleton].
    intros m (a & -> & Ha)%list_elem_of_fmap Heq%list_elem_of_singleton.
    rewrite Forall_forall in Hm. by apply (Hm a).
  - rewrite Hd. eapply sublist_NoDup; [done|apply sublist_delete].
Qed.

Lemma runOps_keeps_mbid_unique_witness :
  NoDup (mbid <$> albumsOf (runOps
    [OpAdd (mkSearchResult "mb" "TB" "artist" "1999" None) 1700000000000;
     OpBattle "A" "B" (Some "B");
     OpAdd (mkSearchResult "md" "TD" "artist" "2001" None) 1700000000001;
     OpDelete "A"] abc)).
Proof.
  apply runOps_keeps_mbid_unique. apply (bool_decide_unpack _). by vm_compute.
Defined.

(** X9.  No duplicate id, one call at a time: when the albums of the
    collection have pairwise different ids, they still have after any one
    call, provided an [addAlbum] is made at a clock value whose id no album
    of the collection carries.  Two adds within the same millisecond are
    the one way to get two albums with one id. *)
Theorem runOp_keeps_id_unique op s :
  NoDup (id <$> albumsOf s) →
  (∀ albumData now, op = OpAdd albumData now → freshId now ∉ id <$> albumsOf s) →
  NoDup (id <$> albumsOf (runOp op s).2).
Proof.
  intros Hnd Hfresh.
  destruct (runOp_field id op s) as [Hp|[(d & now & new & -> & _ & Hid & _ & Hp)|[i Hd]]];
    [done|done|..].
  - by rewrite Hp.
  - rewrite Hp, Hid. apply NoDup_app. split_and!; [done| |apply NoDup_singleton].
    intros m Hm Heq%list_elem_of_singleton. subst m. by apply (Hfresh d now).
  - rewrite Hd. eapply sublist_NoDup; [done|apply sublist_delete].
Qed.

Lemma runOp_keeps_id_unique_witness :
  NoDup (id <$> albumsOf
    (runOp (OpAdd (mkSearchResult "md" "TD" "artist" "2001" None) 1700000000000) abc).2).
Proof.
  apply runOp_keeps_id_unique.
  - apply (bool_decide_unpack _). by vm_compute.
  - intros d now [= <- <-]. apply (bool_decide_unpack _). by vm_compute.
Defined.

(** X10.  Points are never taken away: when no album of the collection has
    negative points, none has after any sequence of calls.  New albums
    start at 0 and a battle adds 0, 1 or 3. *)
Theorem runOps_keeps_points_nonneg ops s :
  Forall (λ a, 0 <= points a) (albumsOf s) →
  Forall (λ a, 0 <= points a) (albumsOf (runOps ops s)).
Proof.
  apply (runOps_invariant (λ s, Forall (λ a, 0 <= points a) (albumsOf s))). clear.
  intros op s Hnn. rewrite Forall_forall in Hnn. apply Forall_forall. intros c' Hc'.
  assert (∀ m : list Album, eraseRank <$> albumsOf (runOp op s).2 ≡ₚ eraseRank <$> m →
            (∀ c, c ∈ m → 0 <= points c) → 0 <= points c') as Hvia.
  { intros m Hp Hm. destruct (erase_perm_elem _ _ _ Hp Hc') as (c & Hc & He).
    rewrite <-(eraseRank_points _ _ He). by apply Hm. }
  destruct (runOp_effect op s)
    as [Hp|[(d & now & new & _ & _ & _ & _ & _ & Hpt & _ & Hp)
           |[(x & i & a & _ & _ & _ & He)
            |(x & y & w & i1 & i2 & a1 & a2 & d & scored & _ & _ & _ & _ & _ & Hd
              & Hk & Hp)]]].
  - by apply (Hvia _ Hp).
  - apply (Hvia _ Hp). intros c [Hc| ->%list_elem_of_singleton]%elem_of_app; [auto|lia].
  - apply (Hvia (delete i (albumsOf s))); [by rewrite He|].
    intros c Hc. apply Hnn. eapply elem_of_sublist; [done|apply sublist_delete].
  - apply (Hvia _ Hp). intros c [k Hc]%list_elem_of_lookup. rewrite Hk in Hc.
    destruct (albumsOf s !! k) as [c0|] eqn:Hc0; [|done]. injection Hc as <-.
    apply list_elem_of_lookup_2, Hnn in Hc0. cbn [points battleUpdate].
    pose proof (gains_nonneg _ _ _ _ Hd). unfold slotGain.
    repeat case_decide; lia.
Qed.

Lemma runOps_keeps_points_nonneg_witness :
  Forall (λ a, 0 <= points a) (albumsOf (runOps
    [OpBattle "A" "B" (Some "B"); OpBattle "B" "C" None; OpDelete "A"] abc)).
Proof.
  apply runOps_keeps_points_nonneg. apply (bool_decide_unpack _). by vm_compute.
Defined.

Lemma opponents_erase_perm (l l' : list Album) :
  eraseRank <$> l' ≡ₚ eraseRank <$> l →
  (opponentsSymmetric l → opponentsSymmetric l') ∧
  (opponentsIrreflexive l → opponentsIrreflexive l').
Proof.
  intros Hp. split.
  - rewrite !opponentsSymmetric_alt. intros Hs a' b' Ha' Hb'.
    destruct (erase_perm_elem _ _ _ Hp Ha') as (a & Ha & Hea).
    destruct (erase_perm_elem _ _ _ Hp Hb') as (b & Hb & Heb).
    rewrite <-(eraseRank_id _ _ Hea), <-(eraseRank_id _ _ Heb),
      <-(eraseRank_battledWith _ _ Hea), <-(eraseRank_battledWith _ _ Heb).
    by apply Hs.
  - unfold opponentsIrreflexive. rewrite !Forall_forall. intros Hi a' Ha'.
    destruct (erase_perm_elem _ _ _ Hp Ha') as (a & Ha & Hea).
    rewrite <-(eraseRank_id _ _ Hea), <-(eraseRank_battledWith _ _ Hea).
    by apply Hi.
Qed.

Lemma opponents_subset (l l' : list Album) :
  (∀ a, a ∈ l' → a ∈ l) →
  (opponentsSymmetric l → opponentsSymmetric l') ∧
  (opponentsIrreflexive l → opponentsIrreflexive l').
Proof.
  intros Hsub. split.
  - rewrite !opponentsSymmetric_alt. intros Hs a b Ha Hb. apply Hs; auto.
  - unfold opponentsIrreflexive. rewrite !Forall_forall. auto.
Qed.

(** X11.  The opponents relation stays well formed, one call at a time.
    In a collection without duplicate ids in which no album has its own id
    in [battledWith] and every album is in the [battledWith] of the albums
    of the collection it has in its own, both still hold after any one
    call, with two provisos: the call is not a [recordBattle] with twice
    the same id, and an [addAlbum] makes an id that no [battledWith] of the
    collection holds yet. *)
Theorem runOp_keeps_opponents op s :
  NoDup (id <$> albumsOf s) →
  opponentsSymmetric (albumsOf s) →
  opponentsIrreflexive (albumsOf s) →
  (∀ x w, op ≠ OpBattle x x w) →
  (∀ albumData now, op = OpAdd albumData now →
     Forall (λ a, freshId now ∉ battledWith a) (albumsOf s)) →
  opponentsSymmetric (albumsOf (runOp op s).2) ∧
  opponentsIrreflexive (albumsOf (runOp op s).2).
Proof.
  intros Hnd Hsym Hirr Hself Hfresh.
  destruct (runOp_effect op s)
    as [Hp|[(d & now & new & -> & _ & _ & Hid & _ & _ & Hbw & Hp)
           |[(x & i & a & -> & _ & _ & He)
            |(x & y & w & i1 & i2 & a1 & a2 & d & scored & -> & _ & H1 & H2 & _ & _
              & Hk & Hp)]]].
  - destruct (opponents_erase_perm _ _ Hp). auto.
  - destruct (opponents_erase_perm _ _ Hp) as [Hs Hi]. split; [apply Hs|apply Hi].
    + specialize (Hfresh d now eq_refl). rewrite Forall_forall in Hfresh.
      rewrite opponentsSymmetric_alt in Hsym. apply opponentsSymmetric_alt.
      intros b c [Hb|Hb%list_elem_of_singleton]%elem_of_app
                 [Hc|Hc%list_elem_of_singleton]%elem_of_app; subst.
      * by apply Hsym.
      * rewrite Hid. intros Hin. by destruct (Hfresh b Hb).
      * rewrite Hbw. by intros ?%elem_of_nil.
      * rewrite Hbw. by intros ?%elem_of_nil.
    + unfold opponentsIrreflexive in *. apply Forall_app. split; [done|].
      apply Forall_singleton. rewrite Hbw. apply not_elem_of_nil.
  - assert (eraseRank <$> albumsOf (runOp (OpDelete x) s).2
            ≡ₚ eraseRank <$> delete i (albumsOf s)) as Hp by (by rewrite He).
    destruct (opponents_erase_perm _ _ Hp) as [Hs Hi].
    destruct (opponents_subset (albumsOf s) (delete i (albumsOf s))) as [Hs' Hi'].
    { intros c Hc. eapply elem_of_sublist; [done|apply sublist_delete]. }
    auto.
  - split.
    + cbn [runOp snd].
      destruct (recordBattle x y w s) as [out s'] eqn:Hrb.
      by apply (recordBattle_keeps_symmetric x y w s out s').
    + destruct (opponents_erase_perm _ _ Hp) as [_ Hi]. apply Hi.
      assert (x ≠ y) as Hxy by (intros ->; by apply (Hself y w)).
      destruct (find_id_lookup _ _ _ _ H1) as [Hi1 Hx].
      destruct (find_id_lookup _ _ _ _ H2) as [Hi2 Hy].
      unfold opponentsIrreflexive in *. rewrite Forall_forall in Hirr.
      apply Forall_forall. intros c [k Hc]%list_elem_of_lookup. rewrite Hk in Hc.
      destruct (albumsOf s !! k) as [c0|] eqn:Hc0; [|done]. injection Hc as <-.
      cbn [id battledWith battleUpdate]. unfold slotPushed.
      pose proof (Hirr c0 (list_elem_of_lookup_2 _ _ _ Hc0)) as Hc0i.
      rewrite !elem_of_app. intros [?|[Hin|Hin]]; [done| |].
      * case_decide as Hki; [|by apply elem_of_nil in Hin].
        apply list_elem_of_singleton in Hin. subst k. congruence.
      * case_decide as Hki; [|by apply elem_of_nil in Hin].
        apply list_elem_of_singleton in Hin. subst k. congruence.
Qed.

Lemma runOp_keeps_opponents_witness :
  opponentsSymmetric (albumsOf (runOp (OpBattle "A" "B" (Some "B")) abc).2) ∧
  opponentsIrreflexive (albumsOf (runOp (OpBattle "A" "B" (Some "B")) abc).2).
Proof.
  apply runOp_keeps_opponents.
  - apply (bool_decide_unpack _). by vm_compute.
  - apply (bool_decide_unpack _). by vm_compute.
  - apply (bool_decide_unpack _). by vm_compute.
  - intros x w [= Hx Hy _]. rewrite <-Hx in Hy. discriminate.
  - by intros d now [= ].
Defined.

(** ** [App]: the ranked list and the battle button *)

Lemma sorted_by_index (l : list Album) (m : Z) :
  (∀ (i : nat) a, l !! i = Some a → rank a = Z.of_nat i + m) →
  StronglySorted (desc (λ a, - rank a)) l.
Proof.
  revert m. induction l as [|x l IH]; intros m Hr; [constructor|].
  apply StronglySorted_cons. split.
  - apply Forall_forall. intros y [i Hy]%list_elem_of_lookup. unfold desc.
    rewrite (Hr 0%nat x eq_refl), (Hr (S i) y Hy). lia.
  - apply (IH (m + 1)). intros i a Ha. rewrite (Hr (S i) a Ha). lia.
Qed.

(** X12.  The sort by rank in [fetchRankedAlbums] changes nothing: the
    list given to [setRankedAlbums] is the array [getAlbums] returned, for
    every content of the store, and the store is not written. *)
Theorem fetchRankedAlbums_is_getAlbums s :
  fetchRankedAlbums s = getAlbums s.
Proof.
  unfold fetchRankedAlbums, bind, getAlbums, ret. f_equal. f_equal.
  apply sortDesc_sorted_id, (sorted_by_index _ 1). apply albumsOf_rank.
Qed.

Lemma possiblePairs_short (l : list Album) :
  (length l < 2)%nat → possiblePairs l = [].
Proof. destruct l as [|a [|b l]]; cbn; [done..|lia]. Qed.

(** X13.  The battle button of [App] is enabled exactly when the battle
    view has a battle to show: with [rankedAlbums] as [fetchRankedAlbums]
    set it from the store, the flag computed is [true] exactly when
    [getNextBattle] returns a pair.  The test for two albums in front of
    [getPossibleBattles] never changes the flag. *)
Theorem checkPossibleBattles_next s :
  ∃ flag,
    checkPossibleBattles (albumsOf s) s = (Returned flag, s) ∧
    (flag = true ↔ ∃ pair, getNextBattle s = (Returned (Some pair), s)) ∧
    (flag = false ↔ getNextBattle s = (Returned None, s)).
Proof.
  rewrite getNextBattle_eq.
  unfold checkPossibleBattles, getPossibleBattles, bind, getAlbums, ret.
  destruct (decide (2 <= length (albumsOf s))%nat) as [Hlen|Hlen].
  - eexists. split; [done|].
    destruct (possiblePairs (albumsOf s)) as [|p ps]; cbn.
    + rewrite bool_decide_eq_true, bool_decide_eq_false.
      split; [split; [lia|by intros [? [= ]]]|split; [done|lia]].
    + rewrite bool_decide_eq_true, bool_decide_eq_false.
      split; [split; [eauto|lia]|split; [lia|by intros [= ]]].
  - exists false. split; [done|].
    rewrite possiblePairs_short by lia. cbn.
    split; [split; [done|by intros [? [= ]]]|done].
Qed.

(** ** Counting the battles left *)

Lemma length_filter_fmap {A B} (f : A → B) (P : B → Prop) `{!∀ x, Decision (P x)}
    (l : list A) :
  length (filter P (f <$> l)) = length (filter (λ x, P (f x)) l).
Proof.
  induction l as [|x l IH]; [done|].
  rewrite fmap_cons, !filter_cons. destruct (decide (P (f x))); cbn; by rewrite IH.
Qed.

Lemma length_filter_ext {A} (P Q : A → Prop) `{!∀ x, Decision (P x)}
    `{!∀ x, Decision (Q x)} (l : list A) :
  (∀ x, x ∈ l → P x ↔ Q x) → length (filter P l) = length (filter Q l).
Proof.
  induction l as [|x l IH]; intros Hpq; [done|].
  rewrite !filter_cons.
  assert (P x ↔ Q x) as Hx by (apply Hpq; left).
  assert (length (filter P l) = length (filter Q l)) as Hl.
  { apply IH. intros y Hy. apply Hpq. by right. }
  destruct (decide (P x)), (decide (Q x)); cbn; try tauto; by rewrite Hl.
Qed.

Lemma possiblePairs_unplayed (l : list Album) :
  length (possiblePairs l) = unplayed (opp <$> l).
Proof.
  induction l as [|a l IH]; [done|].
  cbn [possiblePairs]. rewrite fmap_cons. cbn [unplayed].
  by rewrite length_app, length_fmap, IH, length_filter_fmap.
Qed.

Lemma symOpp_opp (l : list Album) : opponentsSymmetric l ↔ symOpp (opp <$> l).
Proof.
  rewrite opponentsSymmetric_alt. unfold symOpp. split.
  - intros Hs ? ? (a & -> & Ha)%list_elem_of_fmap (b & -> & Hb)%list_elem_of_fmap.
    by apply Hs.
  - intros Hs a b Ha Hb. apply (Hs (opp a) (opp b)); by apply list_elem_of_fmap_2.
Qed.

Lemma unplayed_perm (l1 l2 : list (string * list string)) :
  l1 ≡ₚ l2 → symOpp l1 → unplayed l1 = unplayed l2.
Proof.
  induction 1 as [|x l l' Hp IH|x y l|l l' l'' Hp1 IH1 Hp2 IH2]; intros Hs.
  - done.
  - cbn [unplayed]. rewrite IH.
    + f_equal. apply Permutation_length. by apply filter_Permutation.
    + intros a b Ha Hb. apply Hs; by right.
  - cbn [unplayed]. rewrite !filter_cons.
    assert (x.1 ∈ y.2 ↔ y.1 ∈ x.2) as Hxy.
    { split; intros Hin.
      - apply (Hs y x); [left|right; left|done].
      - apply (Hs x y); [right; left|left|done]. }
    destruct (decide (x.1 ∉ y.2)), (decide (y.1 ∉ x.2)); cbn; try tauto; lia.
  - rewrite IH1 by done. apply IH2.
    intros a b Ha Hb. apply Hs; by rewrite Hp1.
Qed.

Lemma length_filter_split {A} (P Q : A → Prop) `{!∀ x, Decision (P x)}
    `{!∀ x, Decision (Q x)} (l : list A) :
  (length (filter (λ x, P x ∧ Q x) l) + length (filter (λ x, P x ∧ ¬ Q x) l)
   = length (filter P l))%nat.
Proof.
  induction l as [|x l IH]; [done|].
  rewrite !filter_cons.
  destruct (decide (P x)), (decide (Q x)); repeat case_decide; cbn [length]; try tauto; lia.
Qed.

(** Pushing [z] on the [battledWith] of the album at [p] takes from the
    count the albums behind [p] with the id [z] that were still unplayed
    for it. *)
Lemma unplayed_push (l : list (string * list string)) (p : nat) e z :
  l !! p = Some e →
  (unplayed (alter (pushOpp z) p l)
   + length (filter (λ b, (b.1 ∉ e.2) ∧ b.1 = z) (drop (S p) l))
   = unplayed l)%nat.
Proof.
  revert p. induction l as [|a l IH]; intros p Hp; [done|].
  destruct p as [|p].
  - injection Hp as ->. cbn [alter list_alter unplayed drop pushOpp fst snd].
    rewrite <-(length_filter_split (λ b, b.1 ∉ e.2) (λ b, b.1 = z) l).
    assert (length (filter (λ b, b.1 ∉ e.2 ++ [z]) l)
            = length (filter (λ b, (b.1 ∉ e.2) ∧ b.1 ≠ z) l)) as ->; [|rewrite drop_0; lia].
    apply length_filter_ext. intros b _.
    rewrite elem_of_app, list_elem_of_singleton. tauto.
  - cbn [alter list_alter unplayed]. cbn [lookup list_lookup] in Hp.
    change (drop (S (S p)) (a :: l)) with (drop (S p) l).
    rewrite <-(IH p Hp).
    assert (length (filter (λ b, b.1 ∉ a.2) (alter (pushOpp z) p l))
            = length (filter (λ b, b.1 ∉ a.2) l)) as ->; [|lia].
    pose proof (length_filter_fmap (@fst string (list string)) (λ i, i ∉ a.2)) as Hf.
    cbv beta in Hf. rewrite <-!Hf.
    f_equal. f_equal. rewrite (list_fmap_alter fst (pushOpp z) (λ i, i)).
    + apply list_eq. intros k. rewrite list_lookup_alter.
      case_decide; [|done]. subst. exact (option_fmap_id _).
    + by apply Forall_forall.
Qed.

Lemma filter_id_absent (l : list (string * list string)) (P : string * list string → Prop)
    `{!∀ x, Decision (P x)} z :
  z ∉ fst <$> l → filter (λ b, P b ∧ b.1 = z) l = [].
Proof.
  intros Hz. induction l as [|b l IH]; [done|].
  rewrite fmap_cons, not_elem_of_cons in Hz. destruct Hz as [Hb Hl].
  rewrite filter_cons, decide_False by (intros [_ ?]; congruence). by apply IH.
Qed.

Lemma filter_id_once (l : list (string * list string)) (P : string * list string → Prop)
    `{!∀ x, Decision (P x)} (k : nat) b :
  NoDup (fst <$> l) → l !! k = Some b → P b →
  filter (λ c, P c ∧ c.1 = b.1) l = [b].
Proof.
  revert k. induction l as [|c l IH]; intros k Hnd Hk Hb; [done|].
  rewrite fmap_cons, NoDup_cons in Hnd. destruct Hnd as [Hc Hnd].
  destruct k as [|k].
  - injection Hk as ->. rewrite filter_cons, decide_True by done.
    f_equal. by apply filter_id_absent.
  - cbn in Hk. rewrite filter_cons, decide_False; [by apply (IH k)|].
    intros [_ Heq]. apply Hc. rewrite Heq.
    apply list_elem_of_fmap_2. by eapply list_elem_of_lookup_2.
Qed.

Lemma count_behind (L : list (string * list string)) (P : string * list string → Prop)
    `{!∀ x, Decision (P x)} (p q : nat) e :
  NoDup (fst <$> L) → L !! q = Some e →
  length (filter (λ b, P b ∧ b.1 = e.1) (drop (S p) L))
  = if decide ((p < q)%nat ∧ P e) then 1%nat else 0%nat.
Proof.
  intros Hnd Hq. destruct (decide ((p < q)%nat ∧ P e)) as [[Hpq He]|Hn].
  - rewrite (filter_id_once _ P (q - S p) e); [done| | |done].
    + rewrite fmap_drop. eapply sublist_NoDup; [done|apply sublist_drop].
    + rewrite lookup_drop. by replace (S p + (q - S p))%nat with q by lia.
  - destruct (filter _ (drop (S p) L)) as [|c tl] eqn:Hf; [done|].
    assert (c ∈ filter (λ b, P b ∧ b.1 = e.1) (drop (S p) L)) as Hc
      by (rewrite Hf; left).
    apply list_elem_of_filter in Hc as [[Hc Hid] [k Hk]%list_elem_of_lookup].
    rewrite lookup_drop in Hk.
    assert ((S p + k)%nat = q) as Hkq.
    { apply (NoDup_lookup _ _ _ e.1 Hnd); rewrite list_lookup_fmap.
      - by rewrite Hk; cbn; rewrite Hid.
      - by rewrite Hq. }
    destruct Hn. split; [lia|]. rewrite Hkq in Hk. congruence.
Qed.

Lemma opp_scored (l scored : list Album) (g : nat → Z) (i1 i2 : nat) x y :
  (∀ k : nat, scored !! k = battleUpdate (g k) (slotPushed i1 i2 x y k) <$> l !! k) →
  i1 ≠ i2 →
  opp <$> scored = alter (pushOpp x) i2 (alter (pushOpp y) i1 (opp <$> l)).
Proof.
  intros Hk Hne. apply list_eq. intros k.
  rewrite list_lookup_fmap, Hk, !list_lookup_alter, !list_lookup_fmap.
  unfold slotPushed, opp, pushOpp.
  destruct (decide (i2 = k)) as [->|H2], (decide (i1 = k)) as [->|H1];
    try done; destruct (l !! k) as [c|]; cbn; try done.
  - by rewrite decide_False, decide_True by done.
  - by rewrite decide_True, decide_False, app_nil_r by done.
  - by rewrite !decide_False, app_nil_r by done.
Qed.

(** A successful [recordBattle] between two different albums takes exactly
    one pair from the list of [getPossibleBattles]. *)
Lemma recordBattle_count x y w s res s' :
  NoDup (id <$> albumsOf s) → opponentsSymmetric (albumsOf s) → x ≠ y →
  recordBattle x y w s = (Returned res, s') →
  S (length (possiblePairs (albumsOf s'))) = length (possiblePairs (albumsOf s)).
Proof.
  intros Hnd Hsym Hxy Hrb.
  pose proof (recordBattle_keeps_symmetric _ _ _ _ _ _ Hnd Hsym Hrb) as Hsym'.
  destruct (recordBattle_returned _ _ _ _ _ _ Hrb)
    as (i1 & a1 & i2 & a2 & d & scored & H1 & H2 & Hb & _ & Hk & _ & Hread & _).
  assert (i1 ≠ i2) as Hne.
  { intros Heq. by apply Hxy, (find_id_same_index _ _ _ _ _ _ _ H1 H2). }
  destruct (find_id_lookup _ _ _ _ H1) as [Hi1 Hx].
  destruct (find_id_lookup _ _ _ _ H2) as [Hi2 Hy].
  rewrite !possiblePairs_unplayed.
  assert (opp <$> albumsOf s' ≡ₚ opp <$> scored) as Hp.
  { apply erase_perm_fmap; [done|].
    rewrite Hread, assignRanks_erase. f_equiv. apply sortDesc_perm. }
  rewrite (unplayed_perm _ _ Hp) by (by apply symOpp_opp).
  rewrite (opp_scored _ _ _ _ _ _ _ Hk Hne).
  set (L := opp <$> albumsOf s).
  assert (NoDup (fst <$> L)) as HndL.
  { unfold L. by rewrite <-list_fmap_compose. }
  assert (L !! i1 = Some (opp a1)) as HL1 by (unfold L; by rewrite list_lookup_fmap, Hi1).
  assert (L !! i2 = Some (opp a2)) as HL2 by (unfold L; by rewrite list_lookup_fmap, Hi2).
  set (L1 := alter (pushOpp y) i1 L).
  assert (fst <$> L1 = fst <$> L) as Hfst.
  { unfold L1. rewrite (list_fmap_alter fst (pushOpp y) (λ i, i)) by (by apply Forall_forall).
    apply list_eq. intros k. rewrite list_lookup_alter.
    case_decide; [|done]. subst. exact (option_fmap_id _). }
  assert (L1 !! i2 = Some (opp a2)) as HL12.
  { unfold L1. by rewrite list_lookup_alter_ne. }
  assert (L1 !! i1 = Some (pushOpp y (opp a1))) as HL11.
  { unfold L1. by rewrite list_lookup_alter_eq, HL1. }
  pose proof (unplayed_push L i1 (opp a1) y HL1) as Hc1.
  pose proof (unplayed_push L1 i2 (opp a2) x HL12) as Hc2.
  fold L1 in Hc1.
  pose proof (count_behind L (λ b, b.1 ∉ (opp a1).2) i1 i2 (opp a2) HndL HL2) as Hb1.
  pose proof (count_behind L1 (λ b, b.1 ∉ (opp a2).2) i2 i1 (pushOpp y (opp a1))) as Hb2.
  rewrite Hfst in Hb2. specialize (Hb2 HndL HL11).
  assert (id a1 ∉ battledWith a2) as Hb'.
  { intros Hin. apply Hb. rewrite <-Hy.
    apply (opponentsSymmetric_lookup _ i2 i1 a2 a1 Hsym Hi2 Hi1 Hin). }
  cbn [opp pushOpp fst snd] in Hc1, Hc2, Hb1, Hb2.
  rewrite Hy in Hb1. rewrite Hx in Hb2. rewrite Hb1 in Hc1. rewrite Hb2 in Hc2.
  destruct (decide (i1 < i2)%nat) as [Hlt|Hge].
  - rewrite decide_True in Hc1 by done.
    rewrite decide_False in Hc2 by lia. lia.
  - rewrite decide_False in Hc1 by lia.
    rewrite decide_True in Hc2 by (split; [lia|by rewrite <-Hx]). lia.
Qed.

(** ** [AlbumBattle]: one battle after the other *)

Lemma find_id_at (l : list Album) (i : nat) a :
  NoDup (id <$> l) → l !! i = Some a →
  list_find (λ c, id c = id a) l = Some (i, a).
Proof.
  intros Hnd Hi. apply list_find_Some. split_and!; [done..|].
  intros k c Hk Hlt Heq. assert (k = i); [|lia].
  apply (NoDup_lookup _ k i (id a) Hnd); rewrite list_lookup_fmap.
  - by rewrite Hk; cbn; rewrite Heq.
  - by rewrite Hi.
Qed.

Lemma gains_clicked (btn : Button) (a b : Album) :
  gains (id a) (id b) (clicked btn (a, b)) ≠ None.
Proof. unfold gains. destruct btn; cbn; repeat case_decide; done. Qed.

(** The pair [getNextBattle] returns can be recorded, whichever button is
    pressed. *)
Lemma next_battle_returns s a b (btn : Button) :
  NoDup (id <$> albumsOf s) →
  head (possiblePairs (albumsOf s)) = Some (a, b) →
  id a ≠ id b ∧
  ∃ res s', recordBattle (id a) (id b) (clicked btn (a, b)) s = (Returned res, s').
Proof.
  intros Hnd (i & j & Hij & Hi & Hj & Hb & _)%head_possiblePairs_Some.
  pose proof (find_id_at _ _ _ Hnd Hi) as Hfa.
  pose proof (find_id_at _ _ _ Hnd Hj) as Hfb.
  split.
  { intros Heq. rewrite <-Heq in Hfb. assert (i = j) by congruence. lia. }
  destruct (recordBattle_cases s (id a) (id b) (clicked btn (a, b)))
    as [[[Hn|Hn] _]|(i' & j' & a' & b' & Hx' & Hy' & Hc)]; [congruence..|].
  assert (a' = a) as -> by congruence.
  destruct Hc as [[Hin _]|[(_ & Hg & _)|(_ & _ & Hr)]]; [done| |done].
  by destruct (gains_clicked btn a b).
Qed.



(** X15.  What a call of [recordBattle] does to the list of
    [getPossibleBattles], in a collection without duplicate ids whose
    opponents relation is symmetric: a call that returns, for two
    different ids, takes exactly one pair from the list; a call that
    throws, and a call that returns for twice the same id, leave its
    length as it is.  Both properties of the collection hold again
    afterwards. *)
Theorem recordBattle_possible_battles x y w s out s' :
  NoDup (id <$> albumsOf s) → opponentsSymmetric (albumsOf s) →
  recordBattle x y w s = (out, s') →
  NoDup (id <$> albumsOf s') ∧ opponentsSymmetric (albumsOf s') ∧
  (length (possiblePairs (albumsOf s'))
   + (match out with
      | Returned _ => if decide (x = y) then 0 else 1
      | Thrown _ => 0
      end)
   = length (possiblePairs (albumsOf s)))%nat.
Proof.
  intros Hnd Hsym Hrb. split_and!.
  - by rewrite (recordBattle_ids _ _ _ _ _ _ Hrb).
  - by apply (recordBattle_keeps_symmetric _ _ _ _ _ _ Hnd Hsym Hrb).
  - destruct out as [res|e]; [|apply recordBattle_thrown in Hrb as ->; lia].
    destruct (decide (x = y)) as [->|Hxy];
      [|pose proof (recordBattle_count _ _ _ _ _ _ Hnd Hsym Hxy Hrb); lia].
    pose proof (recordBattle_keeps_symmetric _ _ _ _ _ _ Hnd Hsym Hrb) as Hsym'.
    destruct (recordBattle_returned _ _ _ _ _ _ Hrb)
      as (i1 & a1 & i2 & a2 & d & scored & H1 & H2 & Hb & _ & Hk & _ & Hread & _).
    assert (i2 = i1) as -> by congruence.
    destruct (find_id_lookup _ _ _ _ H1) as [Hi1 Hx].
    rewrite !possiblePairs_unplayed.
    assert (opp <$> albumsOf s' ≡ₚ opp <$> scored) as Hp.
    { apply erase_perm_fmap; [done|].
      rewrite Hread, assignRanks_erase. f_equiv. apply sortDesc_perm. }
    rewrite (unplayed_perm _ _ Hp) by (by apply symOpp_opp).
    set (L := opp <$> albumsOf s).
    assert (opp <$> scored = alter (pushOpp y) i1 (alter (pushOpp y) i1 L)) as ->.
    { apply list_eq. intros k. unfold L.
      rewrite list_lookup_fmap, Hk, !list_lookup_alter, !list_lookup_fmap.
      unfold slotPushed, opp, pushOpp.
      destruct (decide (i1 = k)) as [->|Hne]; destruct (albumsOf s !! k) as [c|];
        cbn; try done.
      - rewrite !decide_True by done. cbn. by rewrite <-app_assoc.
      - by rewrite !decide_False, app_nil_r by done. }
    assert (NoDup (fst <$> L)) as HndL.
    { unfold L. by rewrite <-list_fmap_compose. }
    assert (L !! i1 = Some (opp a1)) as HL1
      by (unfold L; by rewrite list_lookup_fmap, Hi1).
    set (L1 := alter (pushOpp y) i1 L).
    assert (fst <$> L1 = fst <$> L) as Hfst.
    { unfold L1.
      rewrite (list_fmap_alter fst (pushOpp y) (λ i, i)) by (by apply Forall_forall).
      apply list_eq. intros k. rewrite list_lookup_alter.
      case_decide; [|done]. subst. exact (option_fmap_id _). }
    assert (L1 !! i1 = Some (pushOpp y (opp a1))) as HL11.
    { unfold L1. by rewrite list_lookup_alter_eq, HL1. }
    pose proof (unplayed_push L i1 (opp a1) y HL1) as Hc1.
    pose proof (unplayed_push L1 i1 (pushOpp y (opp a1)) y HL11) as Hc2.
    fold L1 in Hc1.
    pose proof (count_behind L (λ b, b.1 ∉ (opp a1).2) i1 i1 (opp a1) HndL HL1) as Hb1.
    pose proof (count_behind L1 (λ b, b.1 ∉ (pushOpp y (opp a1)).2) i1 i1
                  (pushOpp y (opp a1))) as Hb2.
    rewrite Hfst in Hb2. specialize (Hb2 HndL HL11).
    cbn [opp pushOpp fst snd] in Hc1, Hc2, Hb1, Hb2.
    rewrite Hx in Hb1, Hb2. rewrite Hb1 in Hc1. rewrite Hb2 in Hc2.
    rewrite decide_False in Hc1 by lia. rewrite decide_False in Hc2 by lia. lia.
Qed.

Lemma recordBattle_possible_battles_witness :
  ∃ res s',
    recordBattle "B" "A" None abc = (Returned res, s') ∧
    length (possiblePairs (albumsOf s')) = 2%nat.
Proof.
  destruct (recordBattle "B" "A" None abc) as [[res|e] s'] eqn:Hrb;
    [|vm_compute in Hrb; discriminate].
  destruct (recordBattle_possible_battles "B" "A" None abc (Returned res) s')
    as (_ & _ & Hc).
  - apply (bool_decide_unpack _). by vm_compute.
  - apply (bool_decide_unpack _). by vm_compute.
  - exact Hrb.
  - exists res, s'. split; [reflexivity|].
    rewrite decide_False in Hc by discriminate.
    change (length (possiblePairs (albumsOf abc))) with 3%nat in Hc. lia.
Defined.

Lemma battleRound_none (btn : Button) s :
  head (possiblePairs (albumsOf s)) = None → battleRound btn s = (Returned false, s).
Proof.
  intros Hh. unfold battleRound, bind, loadNextBattle. by rewrite getNextBattle_eq, Hh.
Qed.

Lemma battleRound_some (btn : Button) s a b res s' :
  head (possiblePairs (albumsOf s)) = Some (a, b) →
  recordBattle (id a) (id b) (clicked btn (a, b)) s = (Returned res, s') →
  battleRound btn s = (Returned true, s').
Proof.
  intros Hh Hrb. unfold battleRound, bind at 1, loadNextBattle.
  rewrite getNextBattle_eq, Hh. unfold handleSelectWinner, bind. by rewrite Hrb.
Qed.

(** X16.  The battle phase ends.  In a collection without duplicate ids
    whose opponents relation is symmetric, let [n] be the number of pairs
    [getPossibleBattles] lists.  Rounds of the battle view, each loading
    the next battle and pressing any of the three buttons, record a battle
    in each of the first [n] rounds and none afterwards; after [k] rounds
    [getPossibleBattles] lists [n - k] pairs, so [getNextBattle] returns
    [null] after [n] rounds and not before. *)
Theorem battleRounds_finish (bs : list Button) s :
  NoDup (id <$> albumsOf s) → opponentsSymmetric (albumsOf s) →
  (battleRounds bs s).2 = (length bs `min` length (possiblePairs (albumsOf s)))%nat ∧
  length (possiblePairs (albumsOf (battleRounds bs s).1))
  = (length (possiblePairs (albumsOf s)) - length bs)%nat ∧
  (getNextBattle (battleRounds bs s).1 = (Returned None, (battleRounds bs s).1)
   ↔ (length (possiblePairs (albumsOf s)) ≤ length bs)%nat).
Proof.
  revert s. induction bs as [|btn bs IH]; intros s Hnd Hsym.
  - cbn [battleRounds fst snd length]. split_and!; [done|lia|].
    rewrite getNextBattle_eq.
    destruct (possiblePairs (albumsOf s)); cbn; split; intros; try done; lia.
  - cbn [battleRounds length].
    destruct (head (possiblePairs (albumsOf s))) as [[a b]|] eqn:Hh.
    + destruct (next_battle_returns s a b btn Hnd Hh) as (Hne & res & s' & Hrb).
      rewrite (battleRound_some _ _ _ _ _ _ Hh Hrb).
      pose proof (recordBattle_count _ _ _ _ _ _ Hnd Hsym Hne Hrb) as Hcount.
      assert (NoDup (id <$> albumsOf s')) as Hnd'
        by (by rewrite (recordBattle_ids _ _ _ _ _ _ Hrb)).
      pose proof (recordBattle_keeps_symmetric _ _ _ _ _ _ Hnd Hsym Hrb) as Hsym'.
      destruct (IH s' Hnd' Hsym') as (Hk & Hlen & Hnull).
      destruct (battleRounds bs s') as [sf k]. cbn [fst snd] in *.
      split_and!; [lia|lia|]. rewrite Hnull. lia.
    + rewrite (battleRound_none _ _ Hh).
      destruct (IH s Hnd Hsym) as (Hk & Hlen & Hnull).
      assert (possiblePairs (albumsOf s) = []) as Hnil
        by (by destruct (possiblePairs (albumsOf s))).
      rewrite Hnil in *. cbn [length] in *.
      split_and!; [lia|lia|]. rewrite Hnull. lia.
Qed.

Lemma battleRounds_finish_witness :
  (battleRounds [PickFirst; PickDraw; PickSecond; PickFirst] abc).2 = 3%nat ∧
  getNextBattle (battleRounds [PickFirst; PickDraw; PickSecond; PickFirst] abc).1
  = (Returned None, (battleRounds [PickFirst; PickDraw; PickSecond; PickFirst] abc).1).
Proof.
  destruct (battleRounds_finish [PickFirst; PickDraw; PickSecond; PickFirst] abc)
    as (Hk & _ & Hnull).
  - apply (bool_decide_unpack _). by vm_compute.
  - apply (bool_decide_unpack _). by vm_compute.
  - split; [exact Hk|]. apply Hnull. vm_compute. lia.
Defined.

(** ** The number of possible battles *)

Lemma possiblePairs_bound (l : list Album) :
  2 * Z.of_nat (length (possiblePairs l))
  <= Z.of_nat (length l) * (Z.of_nat (length l) - 1).
Proof.
  induction l as [|a l IH]; [done|].
  cbn [possiblePairs length]. rewrite length_app, length_fmap.
  pose proof (length_filter (λ b, id b ∉ battledWith a) l). nia.
Qed.

Lemma possiblePairs_fresh (l : list Album) :
  Forall (λ a, battledWith a = []) l →
  2 * Z.of_nat (length (possiblePairs l))
  = Z.of_nat (length l) * (Z.of_nat (length l) - 1).
Proof.
  induction l as [|a l IH]; intros Hf; [done|].
  apply Forall_cons in Hf as [Ha Hl].
  cbn [possiblePairs length]. rewrite length_app, length_fmap.
  assert (filter (λ b, id b ∉ battledWith a) l = l) as ->.
  { rewrite Ha. clear. induction l as [|b l IH]; [done|].
    rewrite filter_cons, decide_True by apply not_elem_of_nil. by rewrite IH. }
  specialize (IH Hl). nia.
Qed.

(** X17.  The number of battles.  [getPossibleBattles] lists at most
    N(N-1)/2 pairs for a collection of N albums, none for fewer than two
    albums, and exactly N(N-1)/2 when no album has battled yet.  Every
    pair has the album that stands higher in the ranking first. *)
Theorem getPossibleBattles_count s :
  ∃ pairs,
    getPossibleBattles s = (Returned pairs, s) ∧
    2 * Z.of_nat (length pairs)
      <= Z.of_nat (length (albumsOf s)) * (Z.of_nat (length (albumsOf s)) - 1) ∧
    (Forall (λ a, battledWith a = []) (albumsOf s) →
     2 * Z.of_nat (length pairs)
       = Z.of_nat (length (albumsOf s)) * (Z.of_nat (length (albumsOf s)) - 1)) ∧
    ((length (albumsOf s) < 2)%nat → pairs = []) ∧
    (∀ a b, (a, b) ∈ pairs → rank a < rank b).
Proof.
  exists (possiblePairs (albumsOf s)). split_and!.
  - done.
  - apply possiblePairs_bound.
  - apply possiblePairs_fresh.
  - apply possiblePairs_short.
  - intros a b (i & j & Hij & Hi & Hj & _)%possiblePairs_elem.
    rewrite (albumsOf_rank _ _ _ Hi), (albumsOf_rank _ _ _ Hj). lia.
Qed.

(** ** [AlbumRanking]: removing a row *)



(** ** [AlbumSearch]: the pages of the search results *)





(** ** A new album and the battles left *)

Lemma unplayed_snoc (L : list (string * list string)) e :
  unplayed (L ++ [e]) = (unplayed L + length (filter (λ a, e.1 ∉ a.2) L))%nat.
Proof.
  induction L as [|a L IH]; [done|].
  cbn [app unplayed]. rewrite IH, filter_app, length_app, !filter_cons, filter_nil.
  destruct (decide (e.1 ∉ a.2)); cbn [length]; lia.
Qed.

Lemma opponentsSymmetric_snoc (l : list Album) new :
  opponentsSymmetric l → battledWith new = [] →
  Forall (λ a, id new ∉ battledWith a) l →
  opponentsSymmetric (l ++ [new]).
Proof.
  rewrite !opponentsSymmetric_alt, Forall_forall. intros Hsym Hbw Hfresh.
  intros b c [Hb|Hb%list_elem_of_singleton]%elem_of_app
             [Hc|Hc%list_elem_of_singleton]%elem_of_app; subst.
  - by apply Hsym.
  - intros Hin. by destruct (Hfresh b Hb).
  - rewrite Hbw. by intros ?%elem_of_nil.
  - rewrite Hbw. by intros ?%elem_of_nil.
Qed.

(** X20.  A new album has every battle still to fight.  In a collection of
    N albums whose opponents relation is symmetric, [addAlbum] of a search
    result with a new MusicBrainz id, at a clock value whose id no
    [battledWith] holds yet, adds exactly N pairs to the list of
    [getPossibleBattles]. *)
Theorem addAlbum_possible_battles s albumData now :
  opponentsSymmetric (albumsOf s) →
  Forall (λ a, mbid a ≠ sr_id albumData) (albumsOf s) →
  Forall (λ a, freshId now ∉ battledWith a) (albumsOf s) →
  ∃ new s',
    addAlbum albumData now s = (Returned new, s') ∧
    opponentsSymmetric (albumsOf s') ∧
    length (possiblePairs (albumsOf s'))
    = (length (possiblePairs (albumsOf s)) + length (albumsOf s))%nat.
Proof.
  intros Hsym Hdup Hfresh. pose proof (addAlbum_new s albumData now Hdup) as Hadd.
  cbv zeta in Hadd. set (new := mkAlbum _ _ _ _ _ _ _ _ _) in Hadd.
  exists new, (Stored (toStored <$> (albumsOf s ++ [new]))).
  assert (eraseRank <$> albumsOf (Stored (toStored <$> (albumsOf s ++ [new])))
          ≡ₚ eraseRank <$> (albumsOf s ++ [new])) as Hp.
  { rewrite albumsOf_Stored, assignRanks_erase. f_equiv. apply sortDesc_perm. }
  pose proof (opponentsSymmetric_snoc (albumsOf s) new Hsym eq_refl Hfresh) as Hsym1.
  split_and!; [done| |].
  - by apply (opponents_erase_perm _ _ Hp).
  - rewrite !possiblePairs_unplayed.
    assert (opp <$> (albumsOf s ++ [new])
            ≡ₚ opp <$> albumsOf (Stored (toStored <$> (albumsOf s ++ [new])))) as Hp'.
    { symmetry. by apply erase_perm_fmap. }
    rewrite <-(unplayed_perm _ _ Hp') by (by apply symOpp_opp).
    rewrite fmap_app, fmap_cons, fmap_nil, unplayed_snoc. f_equal.
    rewrite (length_filter_fmap opp (λ a, (opp new).1 ∉ a.2)).
    cbn [opp fst snd]. change (id new) with (freshId now). f_equal.
    clear -Hfresh. induction Hfresh as [|a l Ha Hl IH]; [done|].
    by rewrite filter_cons, decide_True, IH by done.
Qed.

Lemma addAlbum_possible_battles_witness :
  ∃ new s',
    addAlbum (mkSearchResult "md" "TD" "artist" "2001" None) 1700000000000 abc
      = (Returned new, s') ∧
    length (possiblePairs (albumsOf s')) = 6%nat.
Proof.
  destruct (addAlbum_possible_battles abc
              (mkSearchResult "md" "TD" "artist" "2001" None) 1700000000000)
    as (new & s' & Hadd & _ & Hc).
  - apply (bool_decide_unpack _). by vm_compute.
  - vm_compute. repeat constructor; discriminate.
  - vm_compute. repeat constructor; apply not_elem_of_nil.
  - exists new, s'. split; [exact Hadd|exact Hc].
Defined.
